(** * pyro.contrib.funsor.infer.traceenum_elbo

    A shallow embedding of [terms_from_trace] and of
    [TraceEnum_ELBO] ([_get_trace], [differentiable_loss]) together with
    the properties of the extractor, the factor partition, the cost list and
    the accumulation loop.

    The funsor library is an external dependency of the file: its factor
    type and operations are an interface ([Funsor]) over which every
    definition and theorem is generic.  Python's [frozenset] of variable
    names is a [gset string]; the trace's ordered dictionary of sites is an
    association list in insertion order. *)

From Stdlib Require Import ZArith String List Bool Permutation.
From stdpp Require Import base gmap sets list strings.

Local Open Scope list_scope.

(** ** The factor interface (funsor) *)

(** [funsor.ops.logaddexp] and [funsor.ops.add], passed by name to the
    sum-product and reduction operations. *)
Module ops.
Inductive t : Set := logaddexp | add.
End ops.

(** What the file uses of a funsor: its [inputs] (free variables), the
    arithmetic operators [*], unary [-] and [+], [to_funsor] on a number
    (the literals [1.] and [0] of the file, given as integers),
    [funsor.sum_product.partial_sum_product] and [sum_product] (arguments in
    the order sum_op, prod_op, factors, plates, eliminate),
    [funsor.Integrate], the [reduce] method, [funsor.optimizer.apply_optimizer]
    and [to_data] with the negation of the resulting tensor. *)
Class Funsor (F : Type) := {
  inputs : F → gset string;
  to_funsor : Z → F;
  fmul : F → F → F;
  fneg : F → F;
  fadd : F → F → F;
  partial_sum_product :
    ops.t → ops.t → list F → gset string → gset string → list F;
  sum_product : ops.t → ops.t → list F → gset string → gset string → F;
  Integrate : F → F → gset string → F;
  reduce : F → ops.t → gset string → F;
  apply_optimizer : F → F;
  tensor : Type;
  to_data : F → tensor;
  tensor_neg : tensor → tensor
}.

(** ** Traces *)

(** An entry of a site's [cond_indep_stack]; only [name] and [vectorized]
    are read. *)
Module CondIndepStackFrame.
Record t : Set := mk { name : string; vectorized : bool }.
End CondIndepStackFrame.

(** The nested dictionary [node["funsor"]].  [log_measure] is [None] when
    the key is absent or bound to Python's [None]. *)
Module NodeFunsor.
Record t (F : Type) : Type := mk {
  log_prob : F;
  log_measure : option F;
  value : F;
  scale : F
}.
Arguments mk {F}.
Arguments log_prob {F}.
Arguments log_measure {F}.
Arguments value {F}.
Arguments scale {F}.

Definition with_log_prob {F} (nf : t F) (lp : F) : t F :=
  mk lp (log_measure nf) (value nf) (scale nf).
End NodeFunsor.

(** A site record.  [replay_skipped] and [replay_active] are keys that may
    be missing; they are read with [node.get(key, False)]. *)
Record Node (F : Type) : Type := mkNode {
  type : string;
  cond_indep_stack : list CondIndepStackFrame.t;
  is_observed : bool;
  replay_skipped : option bool;
  replay_active : option bool;
  funsor : NodeFunsor.t F
}.
Arguments mkNode {F}.
Arguments type {F}.
Arguments cond_indep_stack {F}.
Arguments is_observed {F}.
Arguments replay_skipped {F}.
Arguments replay_active {F}.
Arguments funsor {F}.

(** [tr.nodes]: site name to site record, in insertion order.  Names are
    dictionary keys, hence pairwise distinct in a trace the code receives. *)
Abbreviation Trace F := (list (string * Node F)).

(** [tr.nodes[name]] *)
Fixpoint lookup_site {F} (name : string) (tr : Trace F) : option (Node F) :=
  match tr with
  | [] => None
  | (n, node) :: rest =>
      if String.eqb n name then Some node else lookup_site name rest
  end.

(** The in-place statement [node["funsor"]["log_prob"] *= node["funsor"]["scale"]]
    on one site record. *)
Definition imul_log_prob `{Funsor F} (node : Node F) : Node F :=
  mkNode (type node) (cond_indep_stack node) (is_observed node)
    (replay_skipped node) (replay_active node)
    (NodeFunsor.with_log_prob (funsor node)
       (fmul (NodeFunsor.log_prob (funsor node))
             (NodeFunsor.scale (funsor node)))).

(** The same statement seen from the trace that owns the record stored
    under [name]. *)
Definition imul_log_prob_at `{Funsor F} (name : string) (store : Trace F)
  : Trace F :=
  map (λ entry : string * Node F,
         if String.eqb (fst entry) name
         then (fst entry, imul_log_prob (snd entry)) else entry) store.

(** ** The term-set built by the extractor *)

Record Terms (F : Type) : Type := mkTerms {
  log_factors : list F;
  log_measures : list F;
  scale : F;
  plate_vars : gset string;
  measure_vars : gset string
}.
Arguments mkTerms {F}.
Arguments log_factors {F}.
Arguments log_measures {F}.
Arguments scale {F}.
Arguments plate_vars {F}.
Arguments measure_vars {F}.

Section term_updates.
Context {F : Type}.

Definition set_log_factors (t : Terms F) (x : list F) : Terms F :=
  mkTerms x (log_measures t) (scale t) (plate_vars t) (measure_vars t).
Definition set_log_measures (t : Terms F) (x : list F) : Terms F :=
  mkTerms (log_factors t) x (scale t) (plate_vars t) (measure_vars t).
Definition set_scale (t : Terms F) (x : F) : Terms F :=
  mkTerms (log_factors t) (log_measures t) x (plate_vars t) (measure_vars t).
Definition set_plate_vars (t : Terms F) (x : gset string) : Terms F :=
  mkTerms (log_factors t) (log_measures t) (scale t) x (measure_vars t).
Definition set_measure_vars (t : Terms F) (x : gset string) : Terms F :=
  mkTerms (log_factors t) (log_measures t) (scale t) (plate_vars t) x.
End term_updates.

(** ** terms_from_trace *)

Section extractor.
Context {F : Type} `{!Funsor F}.

(** [pyro.poutine.util.prune_subsample_sites] is imported by the file, not
    defined in it: it returns a copy of the trace without its subsample
    sites.  The test that tells a subsample site is a parameter.  The copy
    is a new mapping over the same site records, so a write to a record
    reached through the copy is a write to the caller's trace. *)
Variable site_is_subsample : Node F → bool.

Definition prune_subsample_sites (tr : Trace F) : Trace F :=
  List.filter (λ entry, negb (site_is_subsample (snd entry))) tr.

(** [frozenset(f.name for f in node["cond_indep_stack"] if f.vectorized)] *)
Definition vectorized_frames (node : Node F) : gset string :=
  list_to_set
    (map CondIndepStackFrame.name
       (List.filter CondIndepStackFrame.vectorized (cond_indep_stack node))).

(** The test of line 40:
    [node.get("replay_active", False) and
     set(log_prob.inputs) - terms["plate_vars"] - {name}]. *)
Definition common_scale_test (pv : gset string) (name : string)
    (node : Node F) : bool :=
  default false (replay_active node)
  && bool_decide
       (inputs (NodeFunsor.log_prob (funsor node)) ∖ pv ∖ {[name]} ≠ ∅).

Definition terms_init : Terms F :=
  mkTerms [] [] (to_funsor 1) ∅ ∅.

(** One iteration of the loop of lines 22-44 on the pair [(name, node)].
    [store] is the caller's trace: it holds the record [node] under the key
    [name], and line 44 writes to that record. *)
Definition loop_body (name : string) (node : Node F)
    (terms : Terms F) (store : Trace F) : Terms F * Trace F :=
  if negb (String.eqb (type node) "sample"%string) then (terms, store)
  else
    let terms :=
      set_plate_vars terms (plate_vars terms ∪ vectorized_frames node) in
    let terms :=
      if is_observed node || negb (default false (replay_skipped node))
      then set_log_factors terms
             (log_factors terms ++ [NodeFunsor.log_prob (funsor node)])
      else terms in
    let terms :=
      match NodeFunsor.log_measure (funsor node) with
      | Some m =>
          let terms := set_log_measures terms (log_measures terms ++ [m]) in
          set_measure_vars terms
            (measure_vars terms ∪
               (inputs (NodeFunsor.value (funsor node))
                  ∪ ({[name]} ∖ plate_vars terms)))
      | None => terms
      end in
    if common_scale_test (plate_vars terms) name node
    then (set_scale terms (NodeFunsor.scale (funsor node)), store)
    else (terms, imul_log_prob_at name store).

Fixpoint loop (items : Trace F) (terms : Terms F) (store : Trace F)
  : Terms F * Trace F :=
  match items with
  | [] => (terms, store)
  | (name, node) :: rest =>
      let '(terms', store') := loop_body name node terms store in
      loop rest terms' store'
  end.

(** Returns the term-set and the state in which the call leaves the
    trace it was given. *)
Definition terms_from_trace (tr : Trace F) : Terms F * Trace F :=
  loop (prune_subsample_sites tr) terms_init tr.

End extractor.

(** ** TraceEnum_ELBO *)

(** Exceptions raised by the file. *)
Inductive exn : Set := ValueError (msg : string).

Section elbo_expression.
Context {F : Type} `{!Funsor F}.

(** Lines 69-74: the loop that splits the model's [log_factors]; the pair
    is [(contracted_factors, uncontracted_factors)]. *)
Definition partition_step (measure_vars : gset string)
    (acc : list F * list F) (f : F) : list F * list F :=
  if bool_decide (measure_vars ∩ inputs f ≠ ∅)
  then (fst acc ++ [f], snd acc)
  else (fst acc, snd acc ++ [f]).

Definition partition_factors (measure_vars : gset string)
    (factors : list F) : list F * list F :=
  fold_left (partition_step measure_vars) factors ([], []).

(** Lines 69-84: the list [costs]. *)
Definition cost_terms (guide_terms model_terms : Terms F) : list F :=
  let '(contracted_factors, uncontracted_factors) :=
    partition_factors (measure_vars model_terms) (log_factors model_terms) in
  let model_terms :=
    set_log_factors model_terms
      (partial_sum_product ops.logaddexp ops.add
         (log_measures model_terms ++ contracted_factors)
         (plate_vars model_terms) (measure_vars model_terms)) in
  let costs := map (fmul (scale model_terms)) (log_factors model_terms) in
  let costs := costs ++ uncontracted_factors in
  costs ++ map fneg (log_factors guide_terms).

(** Lines 90-98: one iteration of the accumulation loop. *)
Definition accumulate_step (guide_terms : Terms F) (plate_vars : gset string)
    (elbo cost : F) : F :=
  let log_prob :=
    sum_product ops.logaddexp ops.add (log_measures guide_terms)
      plate_vars
      ((plate_vars ∪ measure_vars guide_terms) ∖ inputs cost) in
  let elbo_term :=
    Integrate log_prob cost (measure_vars guide_terms ∩ inputs cost) in
  let elbo_term := reduce elbo_term ops.add (plate_vars ∩ inputs cost) in
  fadd elbo elbo_term.

(** Lines 88-98: the accumulation loop, from [to_funsor(0)]. *)
Definition accumulate (guide_terms : Terms F) (plate_vars : gset string)
    (costs : list F) : F :=
  fold_left (accumulate_step guide_terms plate_vars) costs (to_funsor 0).

(** Lines 66-98: the expression [elbo] built from the two term-sets. *)
Definition elbo_expression (guide_terms model_terms : Terms F) : F :=
  let costs := cost_terms guide_terms model_terms in
  let plate_vars := plate_vars guide_terms ∪ plate_vars model_terms in
  accumulate guide_terms plate_vars costs.
End elbo_expression.

Module TraceEnum_ELBO.
Section methods.
Context {F : Type} `{!Funsor F}.
Variable site_is_subsample : Node F → bool.

(** The object, the programs and their arguments are opaque here.  Lines
    57-60 run the guide, then the model replayed against it, under the
    [plate] and [enum] handlers of [pyro.contrib.funsor.handlers]; the
    outcome [(guide_tr, model_tr)] is a parameter. *)
Context {Self Program Args Kwargs : Type}.
Variable get_traces :
  Self → Program → Program → Args → Kwargs → Trace F * Trace F.

Definition _get_trace (self : Self) (args : Args) (kwargs : Kwargs)
  : exn + (Trace F * Trace F) :=
  inl (ValueError "shouldn't be here"%string).

Definition differentiable_loss (self : Self) (model guide : Program)
    (args : Args) (kwargs : Kwargs) : tensor :=
  let '(guide_tr, model_tr) := get_traces self model guide args kwargs in
  let guide_terms := fst (terms_from_trace site_is_subsample guide_tr) in
  let model_terms := fst (terms_from_trace site_is_subsample model_tr) in
  let elbo := elbo_expression guide_terms model_terms in
  tensor_neg (to_data (apply_optimizer elbo)).
End methods.
End TraceEnum_ELBO.

(** ** A concrete factor type

    Constant-valued factors that carry the names of their inputs; enough to
    run the definitions above on explicit traces. *)
Module CFactor.
Record t : Type := mk { cf_inputs : gset string; cf_val : Z }.

Definition mul (a b : t) : t :=
  mk (cf_inputs a ∪ cf_inputs b) (cf_val a * cf_val b).
Definition neg (a : t) : t := mk (cf_inputs a) (- cf_val a).
Definition add (a b : t) : t :=
  mk (cf_inputs a ∪ cf_inputs b) (cf_val a + cf_val b).
Definition drop (vars : gset string) (a : t) : t :=
  mk (cf_inputs a ∖ vars) (cf_val a).
Definition total (fs : list t) : t := fold_right add (mk ∅ 0) fs.

#[global] Instance funsor_instance : Funsor t := {|
  inputs := cf_inputs;
  to_funsor z := mk ∅ z;
  fmul := mul;
  fneg := neg;
  fadd := add;
  partial_sum_product _ _ fs _ eliminate := map (drop eliminate) fs;
  sum_product _ _ fs _ eliminate := drop eliminate (total fs);
  Integrate log_prob cost vars := drop vars (mul log_prob cost);
  reduce f _ vars := drop vars f;
  apply_optimizer f := f;
  tensor := Z;
  to_data := cf_val;
  tensor_neg := Z.opp
|}.
End CFactor.

(** * Notions used to state the properties *)

Section extractor_notions.
Context {F : Type} `{!Funsor F}.
Variable site_is_subsample : Node F → bool.

Implicit Types (tr items store : Trace F) (terms : Terms F) (node : Node F).

(** The sample sites the loop visits, in trace order. *)
Definition is_sample (entry : string * Node F) : bool :=
  String.eqb (type (snd entry)) "sample"%string.

Definition sample_sites tr : Trace F :=
  List.filter is_sample (prune_subsample_sites site_is_subsample tr).

(** The batch dimensions marked vectorized on the listed sites. *)
Definition plates_of items : gset string :=
  ⋃ (map (λ entry, vectorized_frames (snd entry)) items).

(** The batch dimensions accumulated when site number [i] of [items] has
    had its own added. *)
Definition plates_upto items (i : nat) : gset string :=
  plates_of (take (S i) items).

(** Site number [i] satisfies the shared-scale condition. *)
Definition common_scale_at items (i : nat) : bool :=
  match items !! i with
  | Some (name, node) => common_scale_test (plates_upto items i) name node
  | None => false
  end.

(** "The site is observed, or it was not skipped during replay". *)
Definition observed_or_not_skipped (entry : string * Node F) : bool :=
  is_observed (snd entry) || negb (default false (replay_skipped (snd entry))).

(** Two site records agree on every field other than the [log_prob]
    factor. *)
Definition same_but_log_prob node node' : Prop :=
  type node' = type node
  ∧ cond_indep_stack node' = cond_indep_stack node
  ∧ is_observed node' = is_observed node
  ∧ replay_skipped node' = replay_skipped node
  ∧ replay_active node' = replay_active node
  ∧ NodeFunsor.log_measure (funsor node') = NodeFunsor.log_measure (funsor node)
  ∧ NodeFunsor.value (funsor node') = NodeFunsor.value (funsor node)
  ∧ NodeFunsor.scale (funsor node') = NodeFunsor.scale (funsor node).

(** The effect of one iteration on the term-set alone. *)
Definition step_terms terms (entry : string * Node F) : Terms F :=
  fst (loop_body (fst entry) (snd entry) terms []).
End extractor_notions.

Section elbo_notions.
Context {F : Type} `{!Funsor F}.

(** The model factors whose input set intersects [measure_vars], and the
    others, each in the order of the list they are taken from. *)
Definition contracted (measure_vars : gset string) (factors : list F)
  : list F :=
  filter (λ f, inputs f ∩ measure_vars ≠ ∅) factors.

Definition uncontracted (measure_vars : gset string) (factors : list F)
  : list F :=
  filter (λ f, inputs f ∩ measure_vars = ∅) factors.

(** The model factors after elimination: [partial_sum_product] over the
    model's [log_measures] and contracted factors, with the model's plates
    and measure variables. *)
Definition eliminated (model_terms : Terms F) : list F :=
  partial_sum_product ops.logaddexp ops.add
    (log_measures model_terms
       ++ contracted (measure_vars model_terms) (log_factors model_terms))
    (plate_vars model_terms) (measure_vars model_terms).

(** The three steps applied to a cost term [c]; [plates] is the union of
    the guide's and the model's plate variables. *)
Definition guide_marginal (guide_terms : Terms F) (plates : gset string)
    (c : F) : F :=
  sum_product ops.logaddexp ops.add (log_measures guide_terms) plates
    ((plates ∪ measure_vars guide_terms) ∖ inputs c).

Definition expectation (guide_terms : Terms F) (plates : gset string)
    (c : F) : F :=
  Integrate (guide_marginal guide_terms plates c) c
    (measure_vars guide_terms ∩ inputs c).

Definition contribution (guide_terms : Terms F) (plates : gset string)
    (c : F) : F :=
  reduce (expectation guide_terms plates c) ops.add (plates ∩ inputs c).
End elbo_notions.

(** * Explicit traces over the concrete factor type *)

Module Examples.

(** No site of the traces below is a subsample site. *)
Definition never_subsample (node : Node CFactor.t) : bool := false.

(** A guide trace: the latent site [z], sampled inside the vectorized
    plate [i].  Its value is batched over the plate, so the plate
    dimension is among the value's inputs; its scale is 2. *)
Definition site_z : Node CFactor.t :=
  mkNode "sample" [CondIndepStackFrame.mk "i" true] false None None
    (NodeFunsor.mk (CFactor.mk {["i"; "z"]} 3)
       (Some (CFactor.mk {["i"; "z"]} 5))
       (CFactor.mk {["i"]} 1)
       (CFactor.mk ∅ 2)).

Definition guide_trace : Trace CFactor.t := [("z"%string, site_z)].

(** A model trace replayed against a guide: the sites [x] and [y] both
    depend on the enumerated variable [z] and carry the scales 2 and 5. *)
Definition site_x : Node CFactor.t :=
  mkNode "sample" [] true (Some false) (Some true)
    (NodeFunsor.mk (CFactor.mk {["x"; "z"]} 3) None
       (CFactor.mk ∅ 1) (CFactor.mk ∅ 2)).

Definition site_y : Node CFactor.t :=
  mkNode "sample" [] true (Some false) (Some true)
    (NodeFunsor.mk (CFactor.mk {["y"; "z"]} 4) None
       (CFactor.mk ∅ 1) (CFactor.mk ∅ 5)).

Definition model_trace : Trace CFactor.t :=
  [("x"%string, site_x); ("y"%string, site_y)].
End Examples.

(** * Further notions *)

Section accumulate_sets.
Context {F : Type} `{!Funsor F}.

(** The three variable sets of one iteration of the accumulation loop
    (lines 94, 96 and 97) for the cost term [c]. *)
Definition eliminate_vars (guide_terms : Terms F) (plates : gset string)
    (c : F) : gset string :=
  (plates ∪ measure_vars guide_terms) ∖ inputs c.

Definition integrate_vars (guide_terms : Terms F) (c : F) : gset string :=
  measure_vars guide_terms ∩ inputs c.

Definition reduce_vars (plates : gset string) (c : F) : gset string :=
  plates ∩ inputs c.
End accumulate_sets.

(** One term-set extends another: the two lists are prefixes and the two
    sets are subsets (the shared scale is not compared). *)
Definition extends {F : Type} (terms terms' : Terms F) : Prop :=
  log_factors terms `prefix_of` log_factors terms'
  ∧ log_measures terms `prefix_of` log_measures terms'
  ∧ plate_vars terms ⊆ plate_vars terms'
  ∧ measure_vars terms ⊆ measure_vars terms'.

(** Line 58, the argument given to the [enum] handler:
    [(-self.max_plate_nesting-1) if self.max_plate_nesting else None],
    for an integer [max_plate_nesting]. *)
Definition first_available_dim (max_plate_nesting : Z) : option Z :=
  if Z.eqb max_plate_nesting 0 then None
  else Some (- max_plate_nesting - 1)%Z.

Module MoreExamples.
(** A parameter site, which the extractor passes over. *)
Definition site_p : Node CFactor.t :=
  mkNode "param" [] false None None
    (NodeFunsor.mk (CFactor.mk ∅ 7) None (CFactor.mk ∅ 7) (CFactor.mk ∅ 3)).

(** A guide trace with a parameter site before the latent site [z]. *)
Definition mixed_trace : Trace CFactor.t :=
  [("p"%string, site_p); ("z"%string, Examples.site_z)].

(** A trace whose one site, the subsample site [ind] of a plate, is of
    type "sample", unobserved and not replay-skipped; [is_subsample] is the
    test that holds of it. *)
Definition is_subsample (node : Node CFactor.t) : bool := true.

Definition site_ind : Node CFactor.t :=
  mkNode "sample" [] false None None
    (NodeFunsor.mk (CFactor.mk ∅ 3) None (CFactor.mk ∅ 1) (CFactor.mk ∅ 2)).

Definition subsample_trace : Trace CFactor.t := [("ind"%string, site_ind)].
End MoreExamples.

(** * Properties of the extractor *)

Section extractor_properties.
Context {F : Type} `{!Funsor F}.
Variable site_is_subsample : Node F → bool.

Implicit Types (tr items store : Trace F) (terms : Terms F) (node : Node F).

Lemma loop_body_fst name node terms store :
  fst (loop_body name node terms store) = step_terms terms (name, node).
Proof.
  unfold step_terms, loop_body; simpl.
  repeat (case_match; simpl; try reflexivity).
Qed.

Lemma loop_fst items terms store :
  fst (loop items terms store) = fold_left step_terms items terms.
Proof.
  revert terms store.
  induction items as [|[name node] rest IH]; intros terms store; simpl.
  - reflexivity.
  - destruct (loop_body name node terms store) as [terms' store'] eqn:E.
    rewrite IH. f_equal.
    rewrite <- (loop_body_fst name node terms store), E. reflexivity.
Qed.

Lemma step_terms_skip terms entry :
  is_sample entry = false → step_terms terms entry = terms.
Proof.
  unfold is_sample, step_terms, loop_body. intros ->. reflexivity.
Qed.

Lemma fold_step_sample items terms :
  fold_left step_terms items terms
  = fold_left step_terms (List.filter is_sample items) terms.
Proof.
  revert terms. induction items as [|entry rest IH]; intros terms; simpl.
  - reflexivity.
  - destruct (is_sample entry) eqn:E; simpl.
    + apply IH.
    + rewrite step_terms_skip by assumption. apply IH.
Qed.

Lemma terms_from_trace_fold tr :
  fst (terms_from_trace site_is_subsample tr)
  = fold_left step_terms (sample_sites site_is_subsample tr) terms_init.
Proof.
  unfold terms_from_trace, sample_sites.
  rewrite loop_fst. apply fold_step_sample.
Qed.

Lemma step_terms_plate_vars terms entry :
  is_sample entry = true →
  plate_vars (step_terms terms entry)
  = plate_vars terms ∪ vectorized_frames (snd entry).
Proof.
  unfold is_sample, step_terms, loop_body. intros ->. simpl.
  repeat (case_match; simpl; try reflexivity).
Qed.

Lemma step_terms_log_factors terms entry :
  is_sample entry = true →
  log_factors (step_terms terms entry)
  = log_factors terms
    ++ (if observed_or_not_skipped entry
        then [NodeFunsor.log_prob (funsor (snd entry))] else []).
Proof.
  unfold is_sample, step_terms, loop_body, observed_or_not_skipped.
  intros ->. simpl.
  repeat (case_match; simpl; try reflexivity);
    rewrite ?app_nil_r; reflexivity.
Qed.

Lemma step_terms_scale terms entry :
  is_sample entry = true →
  scale (step_terms terms entry)
  = if common_scale_test (plate_vars terms ∪ vectorized_frames (snd entry))
         (fst entry) (snd entry)
    then NodeFunsor.scale (funsor (snd entry)) else scale terms.
Proof.
  unfold is_sample, step_terms, loop_body. intros ->. simpl.
  destruct (is_observed entry.2 || negb (default false (replay_skipped entry.2)));
    destruct (NodeFunsor.log_measure (funsor entry.2)); simpl;
    destruct (common_scale_test _ _ _); reflexivity.
Qed.

(** What an iteration adds for a site that carries a [log_measure]: the
    plate variables are removed from the site's name only. *)
Lemma step_terms_log_measure terms entry (m : F) :
  is_sample entry = true →
  NodeFunsor.log_measure (funsor (snd entry)) = Some m →
  log_measures (step_terms terms entry) = log_measures terms ++ [m]
  ∧ measure_vars (step_terms terms entry)
    = measure_vars terms
      ∪ (inputs (NodeFunsor.value (funsor (snd entry)))
         ∪ ({[fst entry]} ∖ (plate_vars terms ∪ vectorized_frames (snd entry)))).
Proof.
  unfold is_sample, step_terms, loop_body. intros -> ->. simpl.
  destruct (is_observed entry.2 || negb (default false (replay_skipped entry.2)));
    simpl; destruct (common_scale_test _ _ _); simpl; auto.
Qed.

Lemma step_terms_no_log_measure terms entry :
  is_sample entry = true →
  NodeFunsor.log_measure (funsor (snd entry)) = None →
  measure_vars (step_terms terms entry) = measure_vars terms.
Proof.
  unfold is_sample, step_terms, loop_body. intros -> ->. simpl.
  destruct (is_observed entry.2 || negb (default false (replay_skipped entry.2)));
    simpl; destruct (common_scale_test _ _ _); reflexivity.
Qed.

(** Every member of [measure_vars] comes from a visited sample site that
    carries a [log_measure]: it is an input of the site's value or the
    site's name. *)
Lemma fold_measure_vars_origin items terms (x : string) :
  Forall (λ entry, is_sample entry = true) items →
  x ∈ measure_vars (fold_left step_terms items terms) →
  x ∈ measure_vars terms
  ∨ ∃ name node,
      (name, node) ∈ items
      ∧ is_Some (NodeFunsor.log_measure (funsor node))
      ∧ (x ∈ inputs (NodeFunsor.value (funsor node)) ∨ x = name).
Proof.
  revert terms.
  induction items as [|[name node] rest IH]; intros terms Hs Hx; simpl in Hx.
  - left. exact Hx.
  - apply Forall_cons_1 in Hs as [Hentry Hrest].
    destruct (IH _ Hrest Hx) as [Hstep|(n & nd & Hin & Hm & Hor)].
    + destruct (NodeFunsor.log_measure (funsor node)) as [m|] eqn:Em.
      * destruct (step_terms_log_measure terms (name, node) m Hentry Em)
          as [_ Hmv].
        rewrite Hmv in Hstep. simpl in Hstep.
        apply elem_of_union in Hstep as [Hold|Hnew]; [left; exact Hold|].
        right. exists name, node.
        split; [left|]. split; [rewrite Em; eauto|].
        apply elem_of_union in Hnew as [Hv|Hn]; [left; exact Hv|].
        apply elem_of_difference in Hn as [Hn _].
        apply elem_of_singleton in Hn. right. exact Hn.
      * rewrite (step_terms_no_log_measure terms (name, node) Hentry Em) in Hstep.
        left. exact Hstep.
    + right. exists n, nd. split; [right; exact Hin|auto].
Qed.

(** The set added agrees with (inputs of the value ∪ {name}) ∖ plate_vars
    when no input of the value is a plate variable. *)
Lemma measure_vars_added_disjoint (value_inputs pv : gset string) (name : string) :
  value_inputs ## pv →
  value_inputs ∪ ({[name]} ∖ pv) = (value_inputs ∪ {[name]}) ∖ pv.
Proof.
  intros Hd. apply set_eq. intros x. specialize (Hd x).
  rewrite elem_of_union, !elem_of_difference, elem_of_union. tauto.
Qed.

Lemma sample_sites_no_subsample tr :
  (∀ node, site_is_subsample node = false) →
  sample_sites site_is_subsample tr = List.filter is_sample tr.
Proof.
  intros Hno. unfold sample_sites, prune_subsample_sites. f_equal.
  induction tr as [|[k nd] rest IH]; simpl; [reflexivity|].
  rewrite Hno. simpl. f_equal. exact IH.
Qed.

Lemma plates_of_snoc items entry :
  plates_of (items ++ [entry]) = plates_of items ∪ vectorized_frames (snd entry).
Proof.
  unfold plates_of. rewrite map_app, union_list_app_L. simpl.
  rewrite (right_id_L ∅ (∪)). reflexivity.
Qed.

Lemma fold_plate_vars items terms :
  Forall (λ entry, is_sample entry = true) items →
  plate_vars (fold_left step_terms items terms)
  = plate_vars terms ∪ plates_of items.
Proof.
  induction items as [|entry rest IH] using rev_ind; intros Hs.
  - simpl. unfold plates_of. simpl. rewrite (right_id_L ∅ (∪)). reflexivity.
  - apply Forall_app in Hs as [Hrest Hentry].
    apply Forall_cons_1 in Hentry as [Hentry _].
    rewrite fold_left_app. simpl.
    rewrite step_terms_plate_vars, IH, plates_of_snoc by assumption.
    rewrite (assoc_L (∪)). reflexivity.
Qed.

Lemma sample_sites_sample tr :
  Forall (λ entry, is_sample entry = true)
    (sample_sites site_is_subsample tr).
Proof.
  unfold sample_sites. apply Forall_forall.
  intros entry Hin. apply list_elem_of_In, filter_In in Hin. tauto.
Qed.

Lemma measure_vars_origin tr (x : string) :
  x ∈ measure_vars (fst (terms_from_trace site_is_subsample tr)) →
  ∃ name node,
    (name, node) ∈ sample_sites site_is_subsample tr
    ∧ is_Some (NodeFunsor.log_measure (funsor node))
    ∧ (x ∈ inputs (NodeFunsor.value (funsor node)) ∨ x = name).
Proof.
  rewrite terms_from_trace_fold. intros Hx.
  destruct (fold_measure_vars_origin _ _ x (sample_sites_sample tr) Hx)
    as [Hinit|Hsite]; [|exact Hsite].
  simpl in Hinit. apply not_elem_of_empty in Hinit. contradiction.
Qed.

Lemma fold_log_factors items terms :
  Forall (λ entry, is_sample entry = true) items →
  log_factors (fold_left step_terms items terms)
  = log_factors terms
    ++ map (λ entry, NodeFunsor.log_prob (funsor (snd entry)))
         (List.filter observed_or_not_skipped items).
Proof.
  revert terms. induction items as [|entry rest IH]; intros terms Hs; simpl.
  - rewrite app_nil_r. reflexivity.
  - apply Forall_cons_1 in Hs as [Hentry Hrest].
    rewrite IH, step_terms_log_factors by assumption.
    destruct (observed_or_not_skipped entry); simpl.
    + rewrite <- app_assoc. reflexivity.
    + rewrite app_nil_r. reflexivity.
Qed.

(** C8, as the code has it.  For every trace, [log_factors] of the
    extracted term-set is the list of the [log_prob] factors of exactly
    those sample sites left by [prune_subsample_sites] that are observed or
    were not skipped during replay, in trace order; a sample site that is
    unobserved and replay-skipped, or that is pruned as a subsample site,
    contributes nothing. *)
Theorem log_factors_observed_or_not_skipped (tr : Trace F) :
  log_factors (fst (terms_from_trace site_is_subsample tr))
  = map (λ entry, NodeFunsor.log_prob (funsor (snd entry)))
      (List.filter observed_or_not_skipped
         (sample_sites site_is_subsample tr)).
Proof.
  rewrite terms_from_trace_fold.
  rewrite fold_log_factors by apply sample_sites_sample.
  reflexivity.
Qed.

Lemma common_scale_at_app_l items entry (i : nat) :
  i < List.length items →
  common_scale_at (items ++ [entry]) i = common_scale_at items i.
Proof.
  intros Hi. unfold common_scale_at, plates_upto.
  rewrite lookup_app_l by assumption.
  rewrite take_app_le by lia. reflexivity.
Qed.

Lemma common_scale_at_last items entry :
  common_scale_at (items ++ [entry]) (List.length items)
  = common_scale_test (plates_of (items ++ [entry])) (fst entry) (snd entry).
Proof.
  unfold common_scale_at, plates_upto.
  rewrite list_lookup_middle by reflexivity.
  rewrite take_ge by (rewrite length_app; simpl; lia).
  destruct entry; reflexivity.
Qed.

Lemma common_scale_at_ge items (i : nat) :
  List.length items ≤ i → common_scale_at items i = false.
Proof.
  intros Hi. unfold common_scale_at.
  rewrite lookup_ge_None_2 by assumption. reflexivity.
Qed.

Lemma scale_fold_snoc items entry :
  Forall (λ entry, is_sample entry = true) (items ++ [entry]) →
  scale (fold_left step_terms (items ++ [entry]) terms_init)
  = if common_scale_at (items ++ [entry]) (List.length items)
    then NodeFunsor.scale (funsor (snd entry))
    else scale (fold_left step_terms items terms_init).
Proof.
  intros Hs. apply Forall_app in Hs as [Hitems Hentry].
  apply Forall_cons_1 in Hentry as [Hentry _].
  rewrite fold_left_app. simpl.
  rewrite step_terms_scale, fold_plate_vars by assumption.
  rewrite common_scale_at_last, plates_of_snoc. simpl.
  rewrite (left_id_L ∅ (∪)). reflexivity.
Qed.

Lemma scale_last_wins items :
  Forall (λ entry, is_sample entry = true) items →
  (∀ (i : nat) name node,
      items !! i = Some (name, node) →
      common_scale_at items i = true →
      (∀ j : nat, i < j → common_scale_at items j = false) →
      scale (fold_left step_terms items terms_init)
      = NodeFunsor.scale (funsor node))
  ∧ ((∀ i : nat, common_scale_at items i = false) →
     scale (fold_left step_terms items terms_init) = to_funsor 1).
Proof.
  induction items as [|entry items IH] using rev_ind; intros Hs.
  - split; [intros i name node Hi; discriminate | reflexivity].
  - pose proof Hs as Hs'. apply Forall_app in Hs' as [Hitems _].
    destruct (IH Hitems) as [IHlast IHnone]. clear IH.
    rewrite scale_fold_snoc by assumption.
    split.
    + intros i name node Hi Hat Hlater.
      destruct (decide (i < List.length items)) as [Hlt|Hge].
      * rewrite (Hlater (List.length items)) by assumption.
        rewrite lookup_app_l in Hi by assumption.
        rewrite common_scale_at_app_l in Hat by assumption.
        apply (IHlast i name node Hi Hat).
        intros j Hj. destruct (decide (j < List.length items)) as [Hjlt|Hjge].
        -- rewrite <- (common_scale_at_app_l items entry) by assumption.
           apply Hlater, Hj.
        -- apply common_scale_at_ge. lia.
      * apply lookup_lt_Some in Hi as Hlen.
        rewrite length_app in Hlen. simpl in Hlen.
        assert (i = List.length items) as -> by lia.
        rewrite Hat.
        rewrite list_lookup_middle in Hi by reflexivity.
        injection Hi as ->. reflexivity.
    + intros Hnone. rewrite (Hnone (List.length items)).
      apply IHnone. intros i.
      destruct (decide (i < List.length items)) as [Hlt|Hge].
      * rewrite <- (common_scale_at_app_l items entry) by assumption.
        apply Hnone.
      * apply common_scale_at_ge. lia.
Qed.


(** *** The trace after the call *)

Lemma lookup_imul_at name n store :
  lookup_site n (imul_log_prob_at name store)
  = if String.eqb n name then imul_log_prob <$> lookup_site n store
    else lookup_site n store.
Proof.
  induction store as [|[k node] rest IH]; simpl.
  - destruct (String.eqb n name); reflexivity.
  - destruct (String.eqb k name) eqn:Ek; simpl;
      destruct (String.eqb k n) eqn:Ekn; simpl.
    + apply String.eqb_eq in Ek, Ekn. subst.
      rewrite String.eqb_refl. reflexivity.
    + exact IH.
    + apply String.eqb_eq in Ekn. subst. rewrite Ek. reflexivity.
    + exact IH.
Qed.

Lemma imul_at_keys name store :
  map fst (imul_log_prob_at name store) = map fst store.
Proof.
  unfold imul_log_prob_at. rewrite map_map. apply map_ext.
  intros [k node]; simpl. destruct (String.eqb k name); reflexivity.
Qed.

Lemma loop_body_store name node terms store :
  snd (loop_body name node terms store) = store
  ∨ (type node = "sample"%string
     ∧ snd (loop_body name node terms store) = imul_log_prob_at name store).
Proof.
  unfold loop_body.
  destruct (String.eqb (type node) "sample") eqn:Et; simpl; [|left; reflexivity].
  apply String.eqb_eq in Et.
  destruct (common_scale_test _ _ _); simpl; [left|right]; auto.
Qed.

Lemma loop_keys items terms store :
  map fst (snd (loop items terms store)) = map fst store.
Proof.
  revert terms store.
  induction items as [|[name node] rest IH]; intros terms store; simpl.
  - reflexivity.
  - destruct (loop_body name node terms store) as [terms' store'] eqn:E.
    rewrite IH.
    destruct (loop_body_store name node terms store) as [Hs|[_ Hs]];
      rewrite E in Hs; simpl in Hs; subst store'.
    + reflexivity.
    + apply imul_at_keys.
Qed.

Lemma loop_frame items terms store n :
  n ∉ map fst items →
  lookup_site n (snd (loop items terms store)) = lookup_site n store.
Proof.
  revert terms store.
  induction items as [|[name node] rest IH]; intros terms store Hn; simpl.
  - reflexivity.
  - simpl in Hn. apply not_elem_of_cons in Hn as [Hne Hrest].
    destruct (loop_body name node terms store) as [terms' store'] eqn:E.
    rewrite IH by assumption.
    destruct (loop_body_store name node terms store) as [Hs|[_ Hs]];
      rewrite E in Hs; simpl in Hs; subst store'.
    + reflexivity.
    + rewrite lookup_imul_at.
      apply String.eqb_neq in Hne. rewrite Hne. reflexivity.
Qed.

Lemma loop_store items :
  NoDup (map fst items) →
  ∀ terms store,
    (∀ name node, (name, node) ∈ items →
                  lookup_site name store = Some node
                  ∧ site_is_subsample node = false) →
    ∀ name node,
      lookup_site name store = Some node →
      lookup_site name (snd (loop items terms store)) = Some node
      ∨ (type node = "sample"%string ∧ site_is_subsample node = false
         ∧ lookup_site name (snd (loop items terms store))
           = Some (imul_log_prob node)).
Proof.
  induction items as [|[n1 nd1] rest IH]; intros Hnd terms store Hitems name node Hl.
  - left. exact Hl.
  - simpl in Hnd. apply NoDup_cons in Hnd as [Hfresh Hnd].
    destruct (Hitems n1 nd1) as [Hl1 Hsub1]; [left|].
    simpl.
    destruct (loop_body n1 nd1 terms store) as [terms' store'] eqn:E.
    pose proof (loop_body_store n1 nd1 terms store) as Hs.
    rewrite E in Hs. simpl in Hs.
    destruct (decide (name = n1)) as [->|Hne].
    + rewrite loop_frame by assumption.
      assert (node = nd1) as -> by congruence.
      destruct Hs as [->|[Ht ->]]; [left; assumption|right].
      rewrite lookup_imul_at, String.eqb_refl, Hl1. auto.
    + assert (∀ k, k ≠ n1 → lookup_site k store' = lookup_site k store) as Hsame.
      { intros k Hk. destruct Hs as [->|[_ ->]]; [reflexivity|].
        rewrite lookup_imul_at. apply String.eqb_neq in Hk.
        rewrite Hk. reflexivity. }
      apply (IH Hnd terms' store').
      * intros k nd Hin. destruct (Hitems k nd) as [Hk Hsub]; [right; exact Hin|].
        split; [|exact Hsub].
        rewrite Hsame; [exact Hk|].
        intros ->. apply Hfresh.
        apply (list_elem_of_fmap_2 fst) in Hin. exact Hin.
      * rewrite Hsame by assumption. exact Hl.
Qed.

Lemma lookup_site_elem_of tr name node :
  NoDup (map fst tr) → (name, node) ∈ tr → lookup_site name tr = Some node.
Proof.
  induction tr as [|[k nd] rest IH]; intros Hnd Hin.
  - apply elem_of_nil in Hin. contradiction.
  - simpl in Hnd. apply NoDup_cons in Hnd as [Hfresh Hnd].
    apply elem_of_cons in Hin as [Heq|Hin]; simpl.
    + injection Heq as -> ->. rewrite String.eqb_refl. reflexivity.
    + destruct (String.eqb k name) eqn:Ek.
      * apply String.eqb_eq in Ek. subst k. exfalso. apply Hfresh.
        apply (list_elem_of_fmap_2 fst) in Hin. exact Hin.
      * apply IH; assumption.
Qed.

Lemma imul_log_prob_same node : same_but_log_prob node (imul_log_prob node).
Proof. unfold same_but_log_prob. simpl. repeat split. Qed.

Lemma same_but_log_prob_refl node : same_but_log_prob node node.
Proof. unfold same_but_log_prob. repeat split. Qed.

Lemma prune_keys_NoDup tr :
  NoDup (map fst tr) →
  NoDup (map fst (prune_subsample_sites site_is_subsample tr)).
Proof.
  unfold prune_subsample_sites.
  induction tr as [|[k nd] rest IH]; intros Hnd; simpl.
  - constructor.
  - simpl in Hnd. apply NoDup_cons in Hnd as [Hfresh Hnd].
    destruct (negb (site_is_subsample nd)); simpl; [|apply IH, Hnd].
    apply NoDup_cons. split; [|apply IH, Hnd].
    intros Hin. apply Hfresh.
    apply list_elem_of_fmap in Hin as [entry [-> Hin]].
    apply list_elem_of_In, filter_In in Hin as [Hin _].
    apply list_elem_of_In in Hin.
    apply (list_elem_of_fmap_2 fst) in Hin. exact Hin.
Qed.

(** One iteration of the loop on a sample site, for any incoming term-set
    and any store holding the record under its name: when the site's replay
    is active and the free variables of its [log_prob], less the plate
    variables accumulated so far (this site's included) and less the site's
    own name, are non-empty, the site's scale becomes the shared scale and
    the stored [log_prob] is left as it was; in every other case the shared
    scale is left alone and the stored [log_prob] is multiplied by the
    site's own scale. *)
Theorem scale_two_cases name node terms store :
  type node = "sample"%string →
  lookup_site name store = Some node →
  let pv := plate_vars terms ∪ vectorized_frames node in
  let residual := inputs (NodeFunsor.log_prob (funsor node)) ∖ pv ∖ {[name]} in
  let out := loop_body name node terms store in
  (replay_active node = Some true ∧ residual ≠ ∅ →
     scale (fst out) = NodeFunsor.scale (funsor node)
     ∧ lookup_site name (snd out) = Some node)
  ∧ (¬ (replay_active node = Some true ∧ residual ≠ ∅) →
     scale (fst out) = scale terms
     ∧ ∃ node',
         lookup_site name (snd out) = Some node'
         ∧ NodeFunsor.log_prob (funsor node')
           = fmul (NodeFunsor.log_prob (funsor node))
                  (NodeFunsor.scale (funsor node))
         ∧ same_but_log_prob node node').
Proof.
  intros Ht Hl pv residual out. subst pv residual out.
  unfold loop_body. rewrite Ht. simpl.
  set (t1 := if is_observed node || negb (default false (replay_skipped node))
             then _ else _).
  assert (plate_vars t1 = plate_vars terms ∪ vectorized_frames node) as Hpv1.
  { subst t1. destruct (_ || _); reflexivity. }
  assert (scale t1 = scale terms) as Hsc1.
  { subst t1. destruct (_ || _); reflexivity. }
  set (t2 := match NodeFunsor.log_measure (funsor node) with
             | Some _ => _ | None => _ end).
  assert (plate_vars t2 = plate_vars terms ∪ vectorized_frames node) as Hpv2.
  { subst t2. destruct (NodeFunsor.log_measure (funsor node)); exact Hpv1. }
  assert (scale t2 = scale terms) as Hsc2.
  { subst t2. destruct (NodeFunsor.log_measure (funsor node)); exact Hsc1. }
  rewrite Hpv2. unfold common_scale_test.
  split.
  - intros [Hact Hres]. rewrite Hact. simpl.
    rewrite bool_decide_eq_true_2 by exact Hres. simpl. auto.
  - intros Hnot.
    assert (default false (replay_active node)
            && bool_decide
                 (inputs (NodeFunsor.log_prob (funsor node))
                  ∖ (plate_vars terms ∪ vectorized_frames node) ∖ {[name]} ≠ ∅)
            = false) as ->.
    { apply andb_false_iff.
      destruct (replay_active node) as [[|]|]; simpl; auto.
      right. apply bool_decide_eq_false_2. intros Hres. apply Hnot. auto. }
    simpl. split; [exact Hsc2|].
    exists (imul_log_prob node).
    rewrite lookup_imul_at, String.eqb_refl, Hl. simpl.
    split; [reflexivity|]. split; [reflexivity|apply imul_log_prob_same].
Qed.

End extractor_properties.

(** * Properties of the ELBO expression *)

Section elbo_properties.
Context {F : Type} `{!Funsor F}.

Implicit Types (guide_terms model_terms : Terms F) (costs : list F).

Lemma partition_fold measure_vars (factors : list F) (acc : list F * list F) :
  fold_left (partition_step measure_vars) factors acc
  = (fst acc ++ contracted measure_vars factors,
     snd acc ++ uncontracted measure_vars factors).
Proof.
  revert acc. unfold contracted, uncontracted.
  induction factors as [|f rest IH]; intros [c u]; simpl.
  - rewrite !app_nil_r. reflexivity.
  - rewrite IH. unfold partition_step. simpl.
    rewrite !filter_cons.
    destruct (decide (inputs f ∩ measure_vars = ∅)) as [He|Hne].
    + rewrite bool_decide_eq_false_2 by (rewrite (comm_L (∩)); tauto).
      rewrite decide_False by tauto. simpl.
      rewrite <- app_assoc. reflexivity.
    + rewrite bool_decide_eq_true_2 by (rewrite (comm_L (∩)); exact Hne).
      rewrite decide_True by exact Hne. simpl.
      rewrite <- app_assoc. reflexivity.
Qed.

(** C4. The model's [log_factors] are split into the contracted ones
    (input set meeting the model's [measure_vars]) and the uncontracted
    ones, each in the extractor's order, and the cost list is the shared
    scale times each eliminated model factor, then every uncontracted
    factor, then the negation of every guide [log_factor]. *)
Theorem cost_terms_layout guide_terms model_terms :
  partition_factors (measure_vars model_terms) (log_factors model_terms)
  = (contracted (measure_vars model_terms) (log_factors model_terms),
     uncontracted (measure_vars model_terms) (log_factors model_terms))
  ∧ cost_terms guide_terms model_terms
    = map (fmul (scale model_terms)) (eliminated model_terms)
      ++ uncontracted (measure_vars model_terms) (log_factors model_terms)
      ++ map fneg (log_factors guide_terms).
Proof.
  assert (partition_factors (measure_vars model_terms) (log_factors model_terms)
          = (contracted (measure_vars model_terms) (log_factors model_terms),
             uncontracted (measure_vars model_terms) (log_factors model_terms)))
    as Hp.
  { unfold partition_factors. rewrite partition_fold. reflexivity. }
  split; [exact Hp|].
  unfold cost_terms. rewrite Hp. simpl.
  rewrite <- app_assoc. reflexivity.
Qed.

Lemma accumulate_step_contribution guide_terms plates (elbo c : F) :
  accumulate_step guide_terms plates elbo c
  = fadd elbo (contribution guide_terms plates c).
Proof. reflexivity. Qed.

Lemma accumulate_fold guide_terms plates costs (elbo : F) :
  fold_left (accumulate_step guide_terms plates) costs elbo
  = fold_left fadd (map (contribution guide_terms plates) costs) elbo.
Proof.
  revert elbo. induction costs as [|c rest IH]; intros elbo; simpl.
  - reflexivity.
  - rewrite IH, accumulate_step_contribution. reflexivity.
Qed.

(** C3. The ELBO expression is the sum, accumulated by addition from
    [to_funsor(0)] in the order of the cost list, of one contribution per
    cost term [c]: the guide's [log_measures] are sum-product-eliminated
    with plates the union of guide and model [plate_vars] and eliminate
    set (plates ∪ guide [measure_vars]) ∖ inputs(c); [c] is integrated
    against the result over guide [measure_vars] ∩ inputs(c); the outcome
    is reduced with addition over plates ∩ inputs(c). *)
Theorem elbo_is_sum_of_contributions guide_terms model_terms :
  elbo_expression guide_terms model_terms
  = fold_left fadd
      (map (λ c,
              let plates := plate_vars guide_terms ∪ plate_vars model_terms in
              reduce
                (Integrate
                   (sum_product ops.logaddexp ops.add
                      (log_measures guide_terms) plates
                      ((plates ∪ measure_vars guide_terms) ∖ inputs c))
                   c (measure_vars guide_terms ∩ inputs c))
                ops.add (plates ∩ inputs c))
           (cost_terms guide_terms model_terms))
      (to_funsor 0).
Proof.
  unfold elbo_expression, accumulate.
  rewrite accumulate_fold. reflexivity.
Qed.

Lemma accumulate_perm guide_terms plates costs costs' :
  (∀ a b : F, fadd a b = fadd b a) →
  (∀ a b c : F, fadd a (fadd b c) = fadd (fadd a b) c) →
  Permutation costs costs' →
  ∀ elbo : F,
    fold_left (accumulate_step guide_terms plates) costs elbo
    = fold_left (accumulate_step guide_terms plates) costs' elbo.
Proof.
  intros Hcomm Hassoc Hperm.
  induction Hperm as [|c l l' _ IH|c1 c2 l|l1 l2 l3 _ IH1 _ IH2];
    intros elbo; simpl.
  - reflexivity.
  - apply IH.
  - f_equal. rewrite !accumulate_step_contribution.
    rewrite <- !Hassoc. f_equal. apply Hcomm.
  - rewrite IH1. apply IH2.
Qed.

(** C10. With an addition of factors that is commutative and associative
    (exact arithmetic), the accumulation loop gives the same result on a
    list of cost terms and on any permutation of it. *)
Theorem accumulate_permutation guide_terms plates costs costs' :
  (∀ a b : F, fadd a b = fadd b a) →
  (∀ a b c : F, fadd a (fadd b c) = fadd (fadd a b) c) →
  Permutation costs costs' →
  accumulate guide_terms plates costs = accumulate guide_terms plates costs'.
Proof.
  intros Hcomm Hassoc Hperm. unfold accumulate.
  apply accumulate_perm; assumption.
Qed.
End elbo_properties.

(** * Properties of the class *)

Section class_properties.
Context {F : Type} `{!Funsor F}.
Variable site_is_subsample : Node F → bool.
Context {Self Program Args Kwargs : Type}.
Variable get_traces :
  Self → Program → Program → Args → Kwargs → Trace F * Trace F.

(** C9. Whatever the arguments, [_get_trace] raises [ValueError]: it
    returns no trace, and nothing is attempted before or after. *)
Theorem get_trace_always_raises (self : Self) (args : Args) (kwargs : Kwargs) :
  TraceEnum_ELBO._get_trace (F := F) self args kwargs
  = inl (ValueError "shouldn't be here")
  ∧ ∀ traces : Trace F * Trace F,
      TraceEnum_ELBO._get_trace self args kwargs ≠ inr traces.
Proof.
  split; [reflexivity|]. intros traces. discriminate.
Qed.

(** The loss is the negated value of the optimized ELBO expression built
    from the term-sets of the two traces. *)
Lemma differentiable_loss_elbo (self : Self) (model guide : Program)
    (args : Args) (kwargs : Kwargs) :
  TraceEnum_ELBO.differentiable_loss site_is_subsample get_traces
    self model guide args kwargs
  = let traces := get_traces self model guide args kwargs in
    tensor_neg
      (to_data
         (apply_optimizer
            (elbo_expression
               (fst (terms_from_trace site_is_subsample (fst traces)))
               (fst (terms_from_trace site_is_subsample (snd traces)))))).
Proof.
  unfold TraceEnum_ELBO.differentiable_loss.
  destruct (get_traces self model guide args kwargs) as [guide_tr model_tr].
  reflexivity.
Qed.
End class_properties.

(** * The definitions run on explicit traces *)

Section on_examples.
Import Examples.

(** C1. On the guide trace whose latent site [z] lies in the vectorized
    plate [i] and has a value batched over [i], the call appends the
    site's [log_measure] and leaves [measure_vars = {i, z}], whereas
    (inputs of the value ∪ {z}) ∖ plate_vars is [{z}]: the plate variable
    of the value is kept. *)
Theorem measure_vars_keep_plate_of_value :
  let terms := fst (terms_from_trace never_subsample guide_trace) in
  log_measures terms = [CFactor.mk {["i"; "z"]} 5]
  ∧ plate_vars terms = {["i"]}
  ∧ measure_vars terms = {["i"; "z"]}
  ∧ (inputs (NodeFunsor.value (funsor site_z)) ∪ {["z"]}) ∖ plate_vars terms
    = {["z"]}
  ∧ measure_vars terms
    ≠ (inputs (NodeFunsor.value (funsor site_z)) ∪ {["z"]}) ∖ plate_vars terms.
Proof.
  repeat split; try (vm_compute; reflexivity).
  vm_compute. discriminate.
Qed.

(** C2. On the same trace the returned [plate_vars] and [measure_vars]
    share the plate variable [i]: they are not disjoint, and a member of
    [measure_vars] is a plate variable. *)
Theorem plate_var_in_measure_vars :
  let terms := fst (terms_from_trace never_subsample guide_trace) in
  "i" ∈ plate_vars terms
  ∧ "i" ∈ measure_vars terms
  ∧ ¬ (plate_vars terms ## measure_vars terms).
Proof.
  assert ("i" ∈ plate_vars (fst (terms_from_trace never_subsample guide_trace)))
    as Hp by (vm_compute; reflexivity).
  assert ("i" ∈ measure_vars (fst (terms_from_trace never_subsample guide_trace)))
    as Hm by (vm_compute; reflexivity).
  repeat split; try assumption.
  intros Hdisj. exact (Hdisj "i" Hp Hm).
Qed.

(** C7 fails as stated: after the call on the guide trace, the [log_prob]
    factor stored at site [z] is the product of the former one (3) with
    the site's scale (2). *)
Lemma trace_is_not_read_only :
  ∃ node',
    lookup_site "z" (snd (terms_from_trace never_subsample guide_trace))
    = Some node'
    ∧ NodeFunsor.log_prob (funsor node') = CFactor.mk {["i"; "z"]} 6
    ∧ NodeFunsor.log_prob (funsor node')
      ≠ NodeFunsor.log_prob (funsor site_z).
Proof.
  exists (imul_log_prob site_z).
  split; [reflexivity|]. split; [vm_compute; reflexivity|].
  vm_compute. discriminate.
Qed.
End on_examples.

(** * Instances of the conditional statements *)

Section instances.
Import Examples.

(** [scale_two_cases] at the model site [x], whose residual variables are
    [{z}]: its scale 2 becomes the shared scale and the stored record is
    untouched. *)
Lemma scale_two_cases_at_site_x :
  type site_x = "sample"%string
  ∧ lookup_site "x" model_trace = Some site_x
  ∧ scale (fst (loop_body "x" site_x terms_init model_trace)) = CFactor.mk ∅ 2
  ∧ lookup_site "x" (snd (loop_body "x" site_x terms_init model_trace))
    = Some site_x.
Proof.
  split; [reflexivity|]. split; [reflexivity|].
  apply (scale_two_cases "x" site_x terms_init model_trace);
    [reflexivity|reflexivity|].
  split; [reflexivity|]. vm_compute. discriminate.
Defined.


Lemma cfactor_add_comm (a b : CFactor.t) : fadd a b = fadd b a.
Proof.
  destruct a as [ia va], b as [ib vb]. simpl. unfold CFactor.add. simpl.
  f_equal; [apply (comm_L (∪))|apply Z.add_comm].
Qed.

Lemma cfactor_add_assoc (a b c : CFactor.t) :
  fadd a (fadd b c) = fadd (fadd a b) c.
Proof.
  destruct a as [ia va], b as [ib vb], c as [ic vc].
  simpl. unfold CFactor.add. simpl.
  f_equal; [apply (assoc_L (∪))|apply Z.add_assoc].
Qed.

(** [accumulate_permutation] over the concrete factors, whose addition
    is commutative and associative, on two cost terms and their swap. *)
Lemma accumulate_permutation_on_swap :
  let guide_terms := fst (terms_from_trace never_subsample guide_trace) in
  let c1 := CFactor.mk {["i"; "z"]} 3 in
  let c2 := CFactor.mk {["x"]} 4 in
  Permutation [c1; c2] [c2; c1]
  ∧ accumulate guide_terms {["i"]} [c1; c2]
    = accumulate guide_terms {["i"]} [c2; c1].
Proof.
  intros guide_terms c1 c2.
  split; [apply perm_swap|].
  apply accumulate_permutation;
    [apply cfactor_add_comm|apply cfactor_add_assoc|apply perm_swap].
Defined.
End instances.


(** * Further properties of the extractor *)

Section extractor_components.
Context {F : Type} `{!Funsor F}.
Variable site_is_subsample : Node F → bool.

Implicit Types (tr items store : Trace F) (terms : Terms F) (node : Node F).

Lemma elem_of_vectorized_frames node (x : string) :
  x ∈ vectorized_frames node
  ↔ ∃ frame,
      frame ∈ cond_indep_stack node
      ∧ CondIndepStackFrame.vectorized frame = true
      ∧ CondIndepStackFrame.name frame = x.
Proof.
  unfold vectorized_frames. rewrite elem_of_list_to_set, list_elem_of_fmap.
  split.
  - intros (frame & -> & Hin).
    apply list_elem_of_In, filter_In in Hin as [Hin Hv].
    exists frame. rewrite list_elem_of_In. auto.
  - intros (frame & Hin & Hv & <-). exists frame. split; [reflexivity|].
    apply list_elem_of_In, filter_In. rewrite <- list_elem_of_In. auto.
Qed.

Lemma elem_of_plates_of items (x : string) :
  x ∈ plates_of items
  ↔ ∃ name node, (name, node) ∈ items ∧ x ∈ vectorized_frames node.
Proof.
  unfold plates_of. rewrite elem_of_union_list. split.
  - intros (X & HX & Hx). apply list_elem_of_fmap in HX as ([name node] & -> & Hin).
    exists name, node. auto.
  - intros (name & node & Hin & Hx). exists (vectorized_frames node).
    split; [|exact Hx].
    apply list_elem_of_fmap. exists (name, node). auto.
Qed.

(** X1. A variable is in [plate_vars] of the extracted term-set exactly
    when it is the name of a frame marked vectorized on the
    [cond_indep_stack] of some visited sample site. *)
Theorem plate_vars_membership tr (x : string) :
  x ∈ plate_vars (fst (terms_from_trace site_is_subsample tr))
  ↔ ∃ name node frame,
      (name, node) ∈ sample_sites site_is_subsample tr
      ∧ frame ∈ cond_indep_stack node
      ∧ CondIndepStackFrame.vectorized frame = true
      ∧ CondIndepStackFrame.name frame = x.
Proof.
  rewrite terms_from_trace_fold.
  rewrite fold_plate_vars by apply sample_sites_sample.
  simpl. rewrite (left_id_L ∅ (∪)), elem_of_plates_of.
  split.
  - intros (name & node & Hin & Hx).
    apply elem_of_vectorized_frames in Hx as (frame & Hf).
    exists name, node, frame. auto.
  - intros (name & node & frame & Hin & Hf).
    exists name, node. split; [exact Hin|].
    apply elem_of_vectorized_frames. exists frame. exact Hf.
Qed.

Lemma step_terms_log_measures terms entry :
  is_sample entry = true →
  log_measures (step_terms terms entry)
  = log_measures terms
    ++ from_option (λ m, [m]) [] (NodeFunsor.log_measure (funsor (snd entry))).
Proof.
  unfold is_sample, step_terms, loop_body. intros ->. simpl.
  destruct (is_observed entry.2 || negb (default false (replay_skipped entry.2)));
    destruct (NodeFunsor.log_measure (funsor entry.2)); simpl;
    destruct (common_scale_test _ _ _); simpl; rewrite ?app_nil_r; reflexivity.
Qed.

Lemma fold_log_measures items terms :
  Forall (λ entry, is_sample entry = true) items →
  log_measures (fold_left step_terms items terms)
  = log_measures terms
    ++ omap (λ entry, NodeFunsor.log_measure (funsor (snd entry))) items.
Proof.
  revert terms. induction items as [|entry rest IH]; intros terms Hs; simpl.
  - rewrite app_nil_r. reflexivity.
  - apply Forall_cons_1 in Hs as [Hentry Hrest].
    rewrite IH, step_terms_log_measures by assumption.
    destruct (NodeFunsor.log_measure (funsor entry.2)); simpl.
    + rewrite <- app_assoc. reflexivity.
    + rewrite app_nil_r. reflexivity.
Qed.

(** X2. [log_measures] of the extracted term-set lists, in trace order, the
    [log_measure] of every visited sample site that carries one, and
    nothing else. *)
Theorem log_measures_of_latent_sites tr :
  log_measures (fst (terms_from_trace site_is_subsample tr))
  = omap (λ entry, NodeFunsor.log_measure (funsor (snd entry)))
      (sample_sites site_is_subsample tr).
Proof.
  rewrite terms_from_trace_fold.
  rewrite fold_log_measures by apply sample_sites_sample.
  reflexivity.
Qed.

(** X3. Every member of [measure_vars] of the extracted term-set is an
    input of the value, or the name, of a visited sample site that carries
    a [log_measure]; in particular [measure_vars] is empty when no such site
    exists. *)
Theorem measure_vars_from_latent_sites tr :
  (∀ x : string,
     x ∈ measure_vars (fst (terms_from_trace site_is_subsample tr)) →
     ∃ name node,
       (name, node) ∈ sample_sites site_is_subsample tr
       ∧ is_Some (NodeFunsor.log_measure (funsor node))
       ∧ (x ∈ inputs (NodeFunsor.value (funsor node)) ∨ x = name))
  ∧ ((∀ name node,
        (name, node) ∈ sample_sites site_is_subsample tr →
        NodeFunsor.log_measure (funsor node) = None) →
     measure_vars (fst (terms_from_trace site_is_subsample tr)) = ∅).
Proof.
  assert (∀ x : string,
     x ∈ measure_vars (fst (terms_from_trace site_is_subsample tr)) →
     ∃ name node,
       (name, node) ∈ sample_sites site_is_subsample tr
       ∧ is_Some (NodeFunsor.log_measure (funsor node))
       ∧ (x ∈ inputs (NodeFunsor.value (funsor node)) ∨ x = name)) as Horigin.
  { intros x. rewrite terms_from_trace_fold. intros Hx.
    destruct (fold_measure_vars_origin _ _ x
                (sample_sites_sample site_is_subsample tr) Hx)
      as [Hinit|Hsite]; [|exact Hsite].
    simpl in Hinit. apply not_elem_of_empty in Hinit. contradiction. }
  split; [exact Horigin|].
  intros Hnone. apply leibniz_equiv, elem_of_equiv_empty. intros x Hx.
  destruct (Horigin x Hx) as (name & node & Hin & [m Hm] & _).
  rewrite (Hnone name node Hin) in Hm. discriminate.
Qed.
End extractor_components.

Section extractor_growth.
Context {F : Type} `{!Funsor F}.
Variable site_is_subsample : Node F → bool.

Implicit Types (tr items store : Trace F) (terms : Terms F) (node : Node F).

Lemma extends_refl terms : extends terms terms.
Proof. unfold extends. repeat split; reflexivity. Qed.

Lemma extends_trans terms1 terms2 terms3 :
  extends terms1 terms2 → extends terms2 terms3 → extends terms1 terms3.
Proof.
  unfold extends. intros (A1 & B1 & C1 & D1) (A2 & B2 & C2 & D2).
  repeat split; etransitivity; eassumption.
Qed.

Lemma step_terms_extends terms entry : extends terms (step_terms terms entry).
Proof.
  destruct (is_sample entry) eqn:Hs.
  - unfold extends.
    rewrite step_terms_log_factors, step_terms_log_measures,
      step_terms_plate_vars by assumption.
    split; [apply prefix_app_r; reflexivity|].
    split; [apply prefix_app_r; reflexivity|].
    split; [apply union_subseteq_l|].
    destruct (NodeFunsor.log_measure (funsor entry.2)) as [m|] eqn:Em.
    + destruct (step_terms_log_measure terms entry m Hs Em) as [_ ->].
      apply union_subseteq_l.
    + rewrite (step_terms_no_log_measure terms entry Hs Em). reflexivity.
  - rewrite step_terms_skip by assumption. apply extends_refl.
Qed.

Lemma fold_extends items terms :
  extends terms (fold_left step_terms items terms).
Proof.
  revert terms. induction items as [|entry rest IH]; intros terms; simpl.
  - apply extends_refl.
  - eapply extends_trans; [apply step_terms_extends|apply IH].
Qed.

Lemma sample_sites_app tr1 tr2 :
  sample_sites site_is_subsample (tr1 ++ tr2)
  = sample_sites site_is_subsample tr1 ++ sample_sites site_is_subsample tr2.
Proof.
  unfold sample_sites, prune_subsample_sites.
  rewrite !List.filter_app. reflexivity.
Qed.

(** X4. Appending sites to a trace only extends what is extracted from
    it: [log_factors] and [log_measures] of the shorter trace are prefixes
    of those of the longer one, and its [plate_vars] and [measure_vars] are
    subsets. *)
Theorem longer_trace_extends_terms tr1 tr2 :
  let terms1 := fst (terms_from_trace site_is_subsample tr1) in
  let terms12 := fst (terms_from_trace site_is_subsample (tr1 ++ tr2)) in
  log_factors terms1 `prefix_of` log_factors terms12
  ∧ log_measures terms1 `prefix_of` log_measures terms12
  ∧ plate_vars terms1 ⊆ plate_vars terms12
  ∧ measure_vars terms1 ⊆ measure_vars terms12.
Proof.
  intros terms1 terms12. subst terms1 terms12.
  rewrite !terms_from_trace_fold, sample_sites_app, fold_left_app.
  apply fold_extends.
Qed.

Lemma fold_name_in_measure_vars items (i : nat) name node :
  Forall (λ entry, is_sample entry = true) items →
  items !! i = Some (name, node) →
  is_Some (NodeFunsor.log_measure (funsor node)) →
  name ∉ plates_upto items i →
  name ∈ measure_vars (fold_left step_terms items terms_init).
Proof.
  intros Hs Hi [m Hm] Hfresh.
  unfold plates_upto in Hfresh.
  rewrite (take_S_r items i (name, node) Hi), plates_of_snoc in Hfresh.
  simpl in Hfresh.
  rewrite <- (take_drop_middle items i (name, node) Hi) in Hs |- *.
  apply Forall_app in Hs as [Hpre Hrest].
  apply Forall_cons_1 in Hrest as [Hentry Hpost].
  rewrite fold_left_app. simpl.
  destruct (fold_extends (drop (S i) items)
              (step_terms (fold_left step_terms (take i items) terms_init)
                 (name, node))) as (_ & _ & _ & Hsub).
  apply Hsub.
  destruct (step_terms_log_measure
              (fold_left step_terms (take i items) terms_init)
              (name, node) m Hentry Hm) as [_ ->].
  rewrite fold_plate_vars by assumption. simpl.
  rewrite (left_id_L ∅ (∪)).
  apply elem_of_union_r, elem_of_union_r, elem_of_difference.
  split; [apply elem_of_singleton; reflexivity|exact Hfresh].
Qed.

(** X5. The name of a visited sample site that carries a [log_measure]
    is in [measure_vars], unless it is among the plate variables
    accumulated up to that site. *)
Theorem latent_site_name_in_measure_vars tr (i : nat) name node :
  sample_sites site_is_subsample tr !! i = Some (name, node) →
  is_Some (NodeFunsor.log_measure (funsor node)) →
  name ∉ plates_upto (sample_sites site_is_subsample tr) i →
  name ∈ measure_vars (fst (terms_from_trace site_is_subsample tr)).
Proof.
  intros Hi Hm Hfresh. rewrite terms_from_trace_fold.
  apply (fold_name_in_measure_vars _ i name node);
    [apply sample_sites_sample|assumption..].
Qed.

Lemma filter_all (A : Type) (f : A → bool) (l : list A) :
  Forall (λ a, f a = true) l → List.filter f l = l.
Proof.
  induction l as [|a l IH]; intros Hall; simpl; [reflexivity|].
  apply Forall_cons_1 in Hall as [Ha Hl].
  rewrite Ha, IH by assumption. reflexivity.
Qed.

Lemma sample_sites_idem tr :
  sample_sites site_is_subsample (sample_sites site_is_subsample tr)
  = sample_sites site_is_subsample tr.
Proof.
  unfold sample_sites at 1. unfold prune_subsample_sites at 1.
  rewrite (filter_all _ (λ entry, negb (site_is_subsample (snd entry)))).
  - apply filter_all, sample_sites_sample.
  - apply Forall_forall. intros entry Hin.
    unfold sample_sites, prune_subsample_sites in Hin.
    apply list_elem_of_In, filter_In in Hin as [Hin _].
    apply filter_In in Hin as [_ Hsub]. exact Hsub.
Qed.

(** X6. Sites that are not of type "sample", and the subsample sites
    that are pruned, have no influence on the extracted term-set: removing
    them from the trace beforehand gives the same term-set. *)
Theorem terms_depend_on_sample_sites_only tr :
  fst (terms_from_trace site_is_subsample (sample_sites site_is_subsample tr))
  = fst (terms_from_trace site_is_subsample tr).
Proof.
  rewrite !terms_from_trace_fold, sample_sites_idem. reflexivity.
Qed.
End extractor_growth.

(** * Further properties of the trace after the call *)

Section trace_after_call.
Context {F : Type} `{!Funsor F}.
Variable site_is_subsample : Node F → bool.

Implicit Types (tr items store : Trace F) (terms : Terms F) (node : Node F).

Lemma loop_sample items terms store :
  loop items terms store = loop (List.filter is_sample items) terms store.
Proof.
  revert terms store.
  induction items as [|[name node] rest IH]; intros terms store; simpl.
  - reflexivity.
  - unfold is_sample at 1. simpl.
    destruct (String.eqb (type node) "sample") eqn:Et; simpl.
    + destruct (loop_body name node terms store). apply IH.
    + unfold loop_body. rewrite Et. simpl. apply IH.
Qed.

Lemma loop_app items1 items2 terms store :
  loop (items1 ++ items2) terms store
  = loop items2 (fst (loop items1 terms store)) (snd (loop items1 terms store)).
Proof.
  revert terms store.
  induction items1 as [|[name node] rest IH]; intros terms store; simpl.
  - reflexivity.
  - destruct (loop_body name node terms store). apply IH.
Qed.

Lemma loop_body_store_sample name node terms store :
  type node = "sample"%string →
  snd (loop_body name node terms store)
  = if common_scale_test (plate_vars terms ∪ vectorized_frames node) name node
    then store else imul_log_prob_at name store.
Proof.
  intros Ht. unfold loop_body. rewrite Ht. simpl.
  destruct (is_observed node || negb (default false (replay_skipped node)));
    destruct (NodeFunsor.log_measure (funsor node)); simpl;
    destruct (common_scale_test _ _ _); reflexivity.
Qed.

Lemma filter_keys_NoDup (f : string * Node F → bool) tr :
  NoDup (map fst tr) → NoDup (map fst (List.filter f tr)).
Proof.
  induction tr as [|[k nd] rest IH]; intros Hnd; simpl.
  - constructor.
  - simpl in Hnd. apply NoDup_cons in Hnd as [Hfresh Hnd].
    destruct (f (k, nd)); simpl; [|apply IH, Hnd].
    apply NoDup_cons. split; [|apply IH, Hnd].
    intros Hin. apply Hfresh.
    apply list_elem_of_fmap in Hin as (entry & -> & Hin).
    apply list_elem_of_In, filter_In in Hin as [Hin _].
    apply list_elem_of_In in Hin.
    apply (list_elem_of_fmap_2 fst) in Hin. exact Hin.
Qed.

Lemma sample_sites_keys_NoDup tr :
  NoDup (map fst tr) → NoDup (map fst (sample_sites site_is_subsample tr)).
Proof.
  intros Hnd. unfold sample_sites, prune_subsample_sites.
  apply filter_keys_NoDup, filter_keys_NoDup, Hnd.
Qed.

Lemma sample_sites_elem_of tr entry :
  entry ∈ sample_sites site_is_subsample tr →
  entry ∈ tr
  ∧ site_is_subsample (snd entry) = false
  ∧ type (snd entry) = "sample"%string.
Proof.
  unfold sample_sites, prune_subsample_sites. intros Hin.
  apply list_elem_of_In, filter_In in Hin as [Hin Hs].
  apply filter_In in Hin as [Hin Hsub].
  apply list_elem_of_In in Hin. apply String.eqb_eq in Hs.
  destruct (site_is_subsample (snd entry)); [discriminate|auto].
Qed.

Lemma stored_after_call tr (i : nat) name node :
  NoDup (map fst tr) →
  sample_sites site_is_subsample tr !! i = Some (name, node) →
  lookup_site name (snd (terms_from_trace site_is_subsample tr))
  = Some (if common_scale_at (sample_sites site_is_subsample tr) i
          then node else imul_log_prob node).
Proof.
  intros Hnd Hi.
  assert (lookup_site name tr = Some node) as Hl.
  { apply lookup_site_elem_of; [exact Hnd|].
    apply (sample_sites_elem_of tr (name, node)).
    apply list_elem_of_lookup. eauto. }
  pose proof (sample_sites_keys_NoDup tr Hnd) as Hnds.
  pose proof (sample_sites_sample site_is_subsample tr) as Hs.
  unfold common_scale_at, plates_upto. rewrite Hi.
  rewrite (take_S_r _ i (name, node) Hi), plates_of_snoc. simpl.
  unfold terms_from_trace. rewrite loop_sample.
  change (List.filter is_sample (prune_subsample_sites site_is_subsample tr))
    with (sample_sites site_is_subsample tr).
  revert Hnds Hs.
  rewrite <- (take_drop_middle (sample_sites site_is_subsample tr) i
                (name, node) Hi) at 1 2 3.
  set (pre := take i (sample_sites site_is_subsample tr)).
  set (post := drop (S i) (sample_sites site_is_subsample tr)).
  intros Hnds Hs.
  rewrite map_app in Hnds. simpl in Hnds.
  apply NoDup_app in Hnds as (_ & Hpre & Hpost).
  apply NoDup_cons in Hpost as [Hpost _].
  assert (name ∉ map fst pre) as Hnpre.
  { intros Hin. apply (Hpre name Hin). left. }
  apply Forall_app in Hs as [Hspre Hsx].
  apply Forall_cons_1 in Hsx as [Hsx _].
  unfold is_sample in Hsx. simpl in Hsx. apply String.eqb_eq in Hsx.
  rewrite loop_app. simpl.
  destruct (loop_body name node (fst (loop pre terms_init tr))
              (snd (loop pre terms_init tr))) as [terms' store'] eqn:E.
  rewrite loop_frame by exact Hpost.
  pose proof (loop_body_store_sample name node (fst (loop pre terms_init tr))
                (snd (loop pre terms_init tr)) Hsx) as Hstore.
  rewrite E in Hstore. simpl in Hstore. subst store'.
  rewrite loop_fst, fold_plate_vars by exact Hspre. simpl.
  rewrite (left_id_L ∅ (∪)).
  destruct (common_scale_test (plates_of pre ∪ vectorized_frames node) name node).
  - rewrite loop_frame by exact Hnpre. exact Hl.
  - rewrite lookup_imul_at, String.eqb_refl.
    rewrite loop_frame by exact Hnpre. rewrite Hl. reflexivity.
Qed.

(** X7. In a trace whose site names are pairwise distinct, the record
    stored after the call under the name of the visited sample site number
    [i] is the former record when the site satisfies the shared-scale
    condition, and the former record with its [log_prob] multiplied by its
    scale otherwise. *)
Theorem visited_site_after_call tr (i : nat) name node :
  NoDup (map fst tr) →
  sample_sites site_is_subsample tr !! i = Some (name, node) →
  lookup_site name (snd (terms_from_trace site_is_subsample tr))
  = Some (if common_scale_at (sample_sites site_is_subsample tr) i
          then node else imul_log_prob node).
Proof. apply stored_after_call. Qed.

(** X8. In a trace whose site names are pairwise distinct, a site that is
    not of type "sample", or that is pruned as a subsample site, is stored
    unchanged after the call. *)
Theorem unvisited_site_after_call tr name node :
  NoDup (map fst tr) →
  lookup_site name tr = Some node →
  type node ≠ "sample"%string ∨ site_is_subsample node = true →
  lookup_site name (snd (terms_from_trace site_is_subsample tr)) = Some node.
Proof.
  intros Hnd Hl Hskip. unfold terms_from_trace.
  destruct (loop_store site_is_subsample
              (prune_subsample_sites site_is_subsample tr)
              (prune_keys_NoDup site_is_subsample tr Hnd) terms_init tr)
    with (name := name) (node := node) as [Hsame|(Ht & Hsub & _)].
  - intros k nd Hin.
    apply list_elem_of_In, filter_In in Hin as [Hin Hsub].
    apply list_elem_of_In in Hin. simpl in Hsub.
    split; [apply lookup_site_elem_of; assumption|].
    destruct (site_is_subsample nd); [discriminate|reflexivity].
  - exact Hl.
  - exact Hsame.
  - destruct Hskip as [Hne|Hsub']; [contradiction|congruence].
Qed.

(** X9. In a trace none of whose visited sample sites has an active
    replay (a guide trace), the shared scale stays [to_funsor(1.)] and,
    names being pairwise distinct, every visited sample site ends with its
    [log_prob] multiplied by its own scale. *)
Theorem no_replay_default_scaling tr :
  NoDup (map fst tr) →
  (∀ name node,
     (name, node) ∈ sample_sites site_is_subsample tr →
     default false (replay_active node) = false) →
  scale (fst (terms_from_trace site_is_subsample tr)) = to_funsor 1
  ∧ ∀ name node,
      (name, node) ∈ sample_sites site_is_subsample tr →
      lookup_site name (snd (terms_from_trace site_is_subsample tr))
      = Some (imul_log_prob node).
Proof.
  intros Hnd Hguide.
  assert (∀ i : nat,
            common_scale_at (sample_sites site_is_subsample tr) i = false)
    as Hnone.
  { intros i. unfold common_scale_at.
    destruct (sample_sites site_is_subsample tr !! i) as [[name node]|] eqn:Hi;
      [|reflexivity].
    unfold common_scale_test. rewrite (Hguide name node); [reflexivity|].
    apply list_elem_of_lookup. eauto. }
  split.
  - rewrite terms_from_trace_fold.
    apply (scale_last_wins _ (sample_sites_sample site_is_subsample tr)).
    exact Hnone.
  - intros name node Hin.
    apply list_elem_of_lookup in Hin as [i Hi].
    rewrite (stored_after_call tr i name node Hnd Hi), Hnone. reflexivity.
Qed.
End trace_after_call.

(** * Further properties of the ELBO expression *)

Section elbo_structure.
Context {F : Type} `{!Funsor F}.
Variable site_is_subsample : Node F → bool.

Implicit Types (guide_terms model_terms : Terms F) (costs : list F).

Lemma contracted_uncontracted_perm (mv : gset string) (factors : list F) :
  contracted mv factors ++ uncontracted mv factors ≡ₚ factors.
Proof.
  unfold contracted, uncontracted.
  induction factors as [|f rest IH]; simpl; [reflexivity|].
  rewrite !filter_cons.
  destruct (decide (inputs f ∩ mv = ∅)) as [He|Hne].
  - rewrite decide_False by tauto.
    rewrite <- Permutation_middle. constructor. exact IH.
  - rewrite decide_True by exact Hne. simpl. constructor. exact IH.
Qed.

(** X10. The split of the model's [log_factors] loses and repeats
    nothing: the contracted factors followed by the uncontracted ones are a
    permutation of the list that was split; every contracted factor has an
    input among the measure variables and no uncontracted factor has. *)
Theorem partition_keeps_every_factor (measure_vars : gset string)
    (factors : list F) :
  let parts := partition_factors measure_vars factors in
  fst parts ++ snd parts ≡ₚ factors
  ∧ Forall (λ f, measure_vars ∩ inputs f ≠ ∅) (fst parts)
  ∧ Forall (λ f, measure_vars ∩ inputs f = ∅) (snd parts).
Proof.
  intros parts. subst parts. unfold partition_factors.
  rewrite partition_fold. simpl.
  split; [apply contracted_uncontracted_perm|].
  unfold contracted, uncontracted.
  split; apply Forall_forall; intros f Hf;
    apply list_elem_of_filter in Hf as [Hf _];
    rewrite (comm_L (∩)); exact Hf.
Qed.

Lemma contracted_empty (factors : list F) : contracted ∅ factors = [].
Proof.
  unfold contracted. induction factors as [|f rest IH]; [reflexivity|].
  rewrite filter_cons, decide_False; [exact IH|].
  intros Hne. apply Hne. apply (right_absorb_L ∅ (∩)).
Qed.

Lemma uncontracted_empty (factors : list F) : uncontracted ∅ factors = factors.
Proof.
  unfold uncontracted. induction factors as [|f rest IH]; [reflexivity|].
  rewrite filter_cons, decide_True by apply (right_absorb_L ∅ (∩)).
  f_equal. exact IH.
Qed.

Lemma omap_all_none {A B : Type} (f : A → option B) (l : list A) :
  (∀ a, a ∈ l → f a = None) → omap f l = [].
Proof.
  induction l as [|a l IH]; intros Hnone; simpl; [reflexivity|].
  rewrite (Hnone a) by left.
  apply IH. intros b Hb. apply Hnone. right. exact Hb.
Qed.

Lemma terms_without_log_measure (tr : Trace F) :
  (∀ name node,
     (name, node) ∈ sample_sites site_is_subsample tr →
     NodeFunsor.log_measure (funsor node) = None) →
  log_measures (fst (terms_from_trace site_is_subsample tr)) = []
  ∧ measure_vars (fst (terms_from_trace site_is_subsample tr)) = ∅.
Proof.
  intros Hnone. rewrite terms_from_trace_fold. split.
  - rewrite fold_log_measures by apply sample_sites_sample. simpl.
    apply omap_all_none. intros [name node] Hin. apply (Hnone name node Hin).
  - apply leibniz_equiv, elem_of_equiv_empty. intros x Hx.
    destruct (fold_measure_vars_origin _ _ x
                (sample_sites_sample site_is_subsample tr) Hx)
      as [Hinit|(name & node & Hin & [m Hm] & _)].
    + simpl in Hinit. apply not_elem_of_empty in Hinit. exact Hinit.
    + rewrite (Hnone name node Hin) in Hm. discriminate.
Qed.

(** X11. When no visited sample site of the model trace carries a
    [log_measure], nothing is contracted: the eliminator is still called,
    on an empty list of factors and an empty set of variables to eliminate;
    its results times the shared scale come first in the cost list, then
    every model [log_factor] as it is, then the negated guide
    [log_factors]. *)
Theorem costs_without_model_measures guide_terms (model_tr : Trace F) :
  (∀ name node,
     (name, node) ∈ sample_sites site_is_subsample model_tr →
     NodeFunsor.log_measure (funsor node) = None) →
  let model_terms := fst (terms_from_trace site_is_subsample model_tr) in
  cost_terms guide_terms model_terms
  = map (fmul (scale model_terms))
      (partial_sum_product ops.logaddexp ops.add []
         (plate_vars model_terms) ∅)
    ++ log_factors model_terms
    ++ map fneg (log_factors guide_terms).
Proof.
  intros Hnone model_terms.
  destruct (terms_without_log_measure model_tr Hnone) as [Hlm Hmv].
  fold model_terms in Hlm, Hmv.
  unfold cost_terms, partition_factors.
  rewrite partition_fold, Hmv, Hlm, contracted_empty, uncontracted_empty.
  simpl. rewrite <- app_assoc. reflexivity.
Qed.

Lemma accumulate_fold_shift guide_terms plates costs (x y : F) :
  (∀ a b c : F, fadd a (fadd b c) = fadd (fadd a b) c) →
  fold_left (accumulate_step guide_terms plates) costs (fadd x y)
  = fadd x (fold_left (accumulate_step guide_terms plates) costs y).
Proof.
  intros Hassoc. revert y.
  induction costs as [|c rest IH]; intros y; simpl; [reflexivity|].
  rewrite !accumulate_step_contribution, <- Hassoc. apply IH.
Qed.

(** X12. With an addition of factors that is associative and has
    [to_funsor(0)] as right identity, accumulating the concatenation of two
    cost lists gives the sum of the two accumulations: the ELBO is the sum of
    its model part and its guide part. *)
Theorem accumulate_app guide_terms plates costs1 costs2 :
  (∀ a b c : F, fadd a (fadd b c) = fadd (fadd a b) c) →
  (∀ a : F, fadd a (to_funsor 0) = a) →
  accumulate guide_terms plates (costs1 ++ costs2)
  = fadd (accumulate guide_terms plates costs1)
         (accumulate guide_terms plates costs2).
Proof.
  intros Hassoc Hzero. unfold accumulate.
  rewrite fold_left_app.
  rewrite <- (Hzero (fold_left (accumulate_step guide_terms plates) costs1
                       (to_funsor 0))) at 1.
  apply accumulate_fold_shift, Hassoc.
Qed.

(** X13. In one iteration of the accumulation loop, the variables
    eliminated from the guide's measures, those integrated and those
    reduced together are exactly the plates and the guide's measure
    variables; an eliminated variable is never an input of the cost term,
    hence neither integrated nor reduced, and the integrated and reduced
    variables are all inputs of the cost term. *)
Theorem accumulate_step_variable_sets guide_terms (plates : gset string)
    (elbo c : F) :
  accumulate_step guide_terms plates elbo c
  = fadd elbo
      (reduce
         (Integrate
            (sum_product ops.logaddexp ops.add (log_measures guide_terms)
               plates (eliminate_vars guide_terms plates c))
            c (integrate_vars guide_terms c))
         ops.add (reduce_vars plates c))
  ∧ eliminate_vars guide_terms plates c ∪ integrate_vars guide_terms c
      ∪ reduce_vars plates c
    = plates ∪ measure_vars guide_terms
  ∧ eliminate_vars guide_terms plates c ## inputs c
  ∧ integrate_vars guide_terms c ∪ reduce_vars plates c ⊆ inputs c.
Proof.
  split; [reflexivity|].
  unfold eliminate_vars, integrate_vars, reduce_vars.
  split; [|split].
  - apply set_eq. intros x.
    rewrite !elem_of_union, elem_of_difference, !elem_of_intersection,
      elem_of_union.
    destruct (decide (x ∈ inputs c)); tauto.
  - intros x Hx Hc. apply elem_of_difference in Hx as [_ Hx]. exact (Hx Hc).
  - intros x Hx.
    apply elem_of_union in Hx as [Hx|Hx];
      apply elem_of_intersection in Hx as [_ Hx]; exact Hx.
Qed.
End elbo_structure.

(** X14. For a non-negative [max_plate_nesting], the enumeration handler
    is given no first available dimension when the nesting is 0, and
    otherwise the dimension [-max_plate_nesting - 1], strictly to the left
    of the [max_plate_nesting] rightmost (plate) dimensions. *)
Theorem first_available_dim_left_of_plates (max_plate_nesting : Z) :
  (0 ≤ max_plate_nesting)%Z →
  match first_available_dim max_plate_nesting with
  | None => max_plate_nesting = 0%Z
  | Some dim => (0 < max_plate_nesting ∧ dim < - max_plate_nesting
                 ∧ dim = - max_plate_nesting - 1)%Z
  end.
Proof.
  intros Hm. unfold first_available_dim.
  destruct (Z.eqb max_plate_nesting 0) eqn:E.
  - apply Z.eqb_eq in E. exact E.
  - apply Z.eqb_neq in E. lia.
Qed.

(** * Further instances *)

Section more_instances.
Import Examples MoreExamples.

Lemma mixed_trace_keys_NoDup : NoDup (map fst mixed_trace).
Proof. apply (bool_decide_unpack _). vm_compute. exact I. Qed.

Lemma guide_trace_keys_NoDup : NoDup (map fst guide_trace).
Proof. apply (bool_decide_unpack _). vm_compute. exact I. Qed.

Lemma model_trace_sites_without_log_measure name (node : Node CFactor.t) :
  (name, node) ∈ sample_sites never_subsample model_trace →
  NodeFunsor.log_measure (funsor node) = None.
Proof.
  assert (sample_sites never_subsample model_trace = model_trace) as ->
    by reflexivity.
  unfold model_trace. intros Hin.
  apply elem_of_cons in Hin as [Heq|Hin].
  - injection Heq as _ ->. reflexivity.
  - apply list_elem_of_singleton in Hin. injection Hin as _ ->. reflexivity.
Qed.

Lemma guide_trace_sites_without_replay name (node : Node CFactor.t) :
  (name, node) ∈ sample_sites never_subsample guide_trace →
  default false (replay_active node) = false.
Proof.
  assert (sample_sites never_subsample guide_trace = guide_trace) as ->
    by reflexivity.
  unfold guide_trace. intros Hin.
  apply list_elem_of_singleton in Hin. injection Hin as _ ->. reflexivity.
Qed.

(** [measure_vars_from_latent_sites] on the model trace, none of whose
    sites carries a [log_measure]. *)
Lemma measure_vars_of_model_trace :
  measure_vars (fst (terms_from_trace never_subsample model_trace)) = ∅.
Proof.
  apply (proj2 (measure_vars_from_latent_sites never_subsample model_trace)).
  apply model_trace_sites_without_log_measure.
Defined.

(** [latent_site_name_in_measure_vars] at the site [z] of the guide trace:
    its name is not the plate [i]. *)
Lemma latent_site_name_z :
  sample_sites never_subsample guide_trace !! 0%nat = Some ("z"%string, site_z)
  ∧ "z" ∈ measure_vars (fst (terms_from_trace never_subsample guide_trace)).
Proof.
  split; [reflexivity|].
  apply (latent_site_name_in_measure_vars never_subsample guide_trace
           0 "z"%string site_z).
  - reflexivity.
  - simpl. eauto.
  - vm_compute. discriminate.
Defined.

(** [visited_site_after_call] at the site [z] of the trace with a
    parameter site: no replay is active, the record is scaled. *)
Lemma visited_site_z_after_call :
  lookup_site "z" (snd (terms_from_trace never_subsample mixed_trace))
  = Some (imul_log_prob site_z).
Proof.
  apply (visited_site_after_call never_subsample mixed_trace
           0 "z"%string site_z mixed_trace_keys_NoDup).
  reflexivity.
Defined.

(** [unvisited_site_after_call] at the parameter site [p]. *)
Lemma unvisited_site_p_after_call :
  lookup_site "p" (snd (terms_from_trace never_subsample mixed_trace))
  = Some site_p.
Proof.
  apply (unvisited_site_after_call never_subsample mixed_trace
           "p"%string site_p mixed_trace_keys_NoDup).
  - reflexivity.
  - left. discriminate.
Defined.

(** [no_replay_default_scaling] on the guide trace. *)
Lemma no_replay_on_guide_trace :
  scale (fst (terms_from_trace never_subsample guide_trace)) = CFactor.mk ∅ 1.
Proof.
  exact (proj1 (no_replay_default_scaling never_subsample guide_trace
                  guide_trace_keys_NoDup guide_trace_sites_without_replay)).
Defined.

(** [costs_without_model_measures] on the model trace. *)
Lemma costs_of_model_trace :
  let guide_terms := fst (terms_from_trace never_subsample guide_trace) in
  let model_terms := fst (terms_from_trace never_subsample model_trace) in
  cost_terms guide_terms model_terms
  = map (fmul (scale model_terms))
      (partial_sum_product ops.logaddexp ops.add []
         (plate_vars model_terms) ∅)
    ++ log_factors model_terms
    ++ map fneg (log_factors guide_terms).
Proof.
  intros guide_terms model_terms.
  apply (costs_without_model_measures never_subsample guide_terms model_trace).
  apply model_trace_sites_without_log_measure.
Defined.

Lemma cfactor_add_zero (a : CFactor.t) : fadd a (to_funsor 0) = a.
Proof.
  destruct a as [ia va]. simpl. unfold CFactor.add. simpl.
  f_equal; [apply (right_id_L ∅ (∪))|apply Z.add_0_r].
Qed.

(** [accumulate_app] over the concrete factors, on a model cost followed by
    a guide cost. *)
Lemma accumulate_app_on_two_costs :
  let guide_terms := fst (terms_from_trace never_subsample guide_trace) in
  let c1 := CFactor.mk {["i"; "z"]} 3 in
  let c2 := CFactor.mk {["x"]} 4 in
  accumulate guide_terms {["i"]} ([c1] ++ [c2])
  = fadd (accumulate guide_terms {["i"]} [c1])
         (accumulate guide_terms {["i"]} [c2]).
Proof.
  intros guide_terms c1 c2.
  apply accumulate_app; [apply cfactor_add_assoc|apply cfactor_add_zero].
Defined.

(** [first_available_dim_left_of_plates] for two nested plates: the
    enumeration starts at dimension -3. *)
Lemma first_available_dim_of_two :
  (0 ≤ 2)%Z ∧ first_available_dim 2 = Some (-3)%Z.
Proof.
  split; [lia|].
  pose proof (first_available_dim_left_of_plates 2 ltac:(lia)) as Hdim.
  destruct (first_available_dim 2) as [dim|]; [|discriminate].
  destruct Hdim as (_ & _ & ->). reflexivity.
Defined.
End more_instances.

(** * The two scale behaviours and the trace after the call, per site *)

Section scale_behaviours.
Context {F : Type} `{!Funsor F}.
Variable site_is_subsample : Node F → bool.

Implicit Types (tr items store : Trace F) (terms : Terms F) (node : Node F).

Lemma common_scale_test_true (pv : gset string) name node :
  common_scale_test pv name node = true
  ↔ replay_active node = Some true
    ∧ inputs (NodeFunsor.log_prob (funsor node)) ∖ pv ∖ {[name]} ≠ ∅.
Proof.
  unfold common_scale_test. rewrite andb_true_iff, bool_decide_eq_true.
  destruct (replay_active node) as [[|]|]; simpl; split;
    intros [Ha Hb]; try discriminate; auto.
Qed.

Lemma lookup_site_Some_elem_of tr name node :
  lookup_site name tr = Some node → (name, node) ∈ tr.
Proof.
  induction tr as [|[k nd] rest IH]; simpl; [discriminate|].
  destruct (String.eqb k name) eqn:Ek.
  - apply String.eqb_eq in Ek. intros [= ->]. subst k. left.
  - intros Hl. right. apply IH, Hl.
Qed.

Lemma sample_sites_elem_of_2 tr name node :
  (name, node) ∈ tr →
  type node = "sample"%string →
  site_is_subsample node = false →
  (name, node) ∈ sample_sites site_is_subsample tr.
Proof.
  intros Hin Ht Hsub. unfold sample_sites, prune_subsample_sites.
  apply list_elem_of_In, filter_In. split.
  - apply filter_In. split; [apply list_elem_of_In, Hin|].
    simpl. rewrite Hsub. reflexivity.
  - unfold is_sample. simpl. rewrite Ht. reflexivity.
Qed.

Lemma sample_sites_index_unique tr (i j : nat) name node node' :
  NoDup (map fst tr) →
  sample_sites site_is_subsample tr !! i = Some (name, node) →
  sample_sites site_is_subsample tr !! j = Some (name, node') →
  i = j.
Proof.
  intros Hnd Hi Hj.
  apply (NoDup_lookup (map fst (sample_sites site_is_subsample tr)) i j name).
  - apply sample_sites_keys_NoDup, Hnd.
  - change (map fst (sample_sites site_is_subsample tr))
      with (fst <$> sample_sites site_is_subsample tr).
    rewrite list_lookup_fmap, Hi. reflexivity.
  - change (map fst (sample_sites site_is_subsample tr))
      with (fst <$> sample_sites site_is_subsample tr).
    rewrite list_lookup_fmap, Hj. reflexivity.
Qed.

(** C5, as the code has it.  In a trace with pairwise distinct site names,
    [terms_from_trace] applies exactly one of two scale behaviours to every
    sample site left by [prune_subsample_sites].  When the site's replay is
    active and the free variables of its [log_prob], less the plate
    variables accumulated up to and including the site and less the site's
    own name, are non-empty, the stored [log_prob] is left unscaled and the
    site's scale is recorded as the shared scale: it is the scale of the
    returned term-set unless a later site satisfies the condition too.
    In every other case (a replay-active site without such residual
    variables included) the stored [log_prob] is multiplied by the site's
    own scale. *)
Theorem scale_two_cases_on_trace tr (i : nat) name node :
  NoDup (map fst tr) →
  sample_sites site_is_subsample tr !! i = Some (name, node) →
  let sites := sample_sites site_is_subsample tr in
  let residual :=
    inputs (NodeFunsor.log_prob (funsor node)) ∖ plates_upto sites i
      ∖ {[name]} in
  let result := terms_from_trace site_is_subsample tr in
  (replay_active node = Some true ∧ residual ≠ ∅ →
     lookup_site name (snd result) = Some node
     ∧ ((∀ j : nat, i < j → common_scale_at sites j = false) →
        scale (fst result) = NodeFunsor.scale (funsor node)))
  ∧ (¬ (replay_active node = Some true ∧ residual ≠ ∅) →
     ∃ node',
       lookup_site name (snd result) = Some node'
       ∧ NodeFunsor.log_prob (funsor node')
         = fmul (NodeFunsor.log_prob (funsor node))
                (NodeFunsor.scale (funsor node))
       ∧ same_but_log_prob node node').
Proof.
  intros Hnd Hi sites residual result. subst sites residual result.
  pose proof (stored_after_call site_is_subsample tr i name node Hnd Hi)
    as Hstored.
  assert (common_scale_at (sample_sites site_is_subsample tr) i
          = common_scale_test
              (plates_upto (sample_sites site_is_subsample tr) i) name node)
    as Hat by (unfold common_scale_at; rewrite Hi; reflexivity).
  split.
  - intros Hcond. apply common_scale_test_true in Hcond.
    rewrite <- Hat in Hcond. rewrite Hcond in Hstored.
    split; [exact Hstored|].
    intros Hlater. rewrite terms_from_trace_fold.
    apply (proj1 (scale_last_wins _
                    (sample_sites_sample site_is_subsample tr))
             i name node Hi Hcond Hlater).
  - intros Hnot.
    assert (common_scale_at (sample_sites site_is_subsample tr) i = false)
      as Hfalse.
    { rewrite Hat. apply not_true_is_false. intros Htest.
      apply Hnot, common_scale_test_true, Htest. }
    rewrite Hfalse in Hstored.
    exists (imul_log_prob node).
    split; [exact Hstored|]. split; [reflexivity|apply imul_log_prob_same].
Qed.

(** C7, as the code has it.  For every trace (site names pairwise
    distinct), the call keeps the site names and their order, and every
    field of every site record other than the [log_prob] factor.  The
    [log_prob] factor of a sample site left by [prune_subsample_sites]
    that takes the default-scale branch is replaced by its product with
    the site's scale; the record of every other site is unchanged. *)
Theorem trace_after_call tr :
  NoDup (map fst tr) →
  let tr' := snd (terms_from_trace site_is_subsample tr) in
  let sites := sample_sites site_is_subsample tr in
  map fst tr' = map fst tr
  ∧ ∀ name node,
      lookup_site name tr = Some node →
      ∃ node',
        lookup_site name tr' = Some node'
        ∧ same_but_log_prob node node'
        ∧ ((∃ i : nat, sites !! i = Some (name, node)
                       ∧ common_scale_at sites i = false) →
           NodeFunsor.log_prob (funsor node')
           = fmul (NodeFunsor.log_prob (funsor node))
                  (NodeFunsor.scale (funsor node)))
        ∧ (¬ (∃ i : nat, sites !! i = Some (name, node)
                         ∧ common_scale_at sites i = false) →
           node' = node).
Proof.
  intros Hnd tr' sites. subst tr' sites.
  split; [unfold terms_from_trace; apply loop_keys|].
  intros name node Hl.
  pose proof (lookup_site_Some_elem_of tr name node Hl) as Hin.
  destruct (String.eqb (type node) "sample") eqn:Et;
    [destruct (site_is_subsample node) eqn:Hsub|].
  2:{ (* a visited sample site *)
    apply String.eqb_eq in Et.
    pose proof (sample_sites_elem_of_2 tr name node Hin Et Hsub) as Hs.
    apply list_elem_of_lookup in Hs as [i Hi].
    pose proof (stored_after_call site_is_subsample tr i name node Hnd Hi)
      as Hstored.
    destruct (common_scale_at (sample_sites site_is_subsample tr) i) eqn:Hat.
    - exists node. split; [exact Hstored|].
      split; [apply same_but_log_prob_refl|].
      split; [|reflexivity].
      intros (j & Hj & Hfalse).
      rewrite (sample_sites_index_unique tr j i name node node Hnd Hj Hi)
        in Hfalse.
      congruence.
    - exists (imul_log_prob node). split; [exact Hstored|].
      split; [apply imul_log_prob_same|].
      split; [reflexivity|].
      intros Hnone. exfalso. apply Hnone. eauto. }
  all: (* a site that is not visited *)
    assert (lookup_site name (snd (terms_from_trace site_is_subsample tr))
            = Some node) as Hsame;
    [ unfold terms_from_trace;
      destruct (loop_store site_is_subsample
                  (prune_subsample_sites site_is_subsample tr)
                  (prune_keys_NoDup site_is_subsample tr Hnd) terms_init tr)
        with (name := name) (node := node) as [Hsame|(Ht & Hsub' & _)];
      [ intros k nd Hk;
        apply list_elem_of_In, filter_In in Hk as [Hk Hns];
        apply list_elem_of_In in Hk; simpl in Hns;
        split; [apply lookup_site_elem_of; assumption|];
        destruct (site_is_subsample nd); [discriminate|reflexivity]
      | exact Hl
      | exact Hsame
      | rewrite Ht in Et; simpl in Et; congruence ]
    | exists node; split; [exact Hsame|];
      split; [apply same_but_log_prob_refl|];
      split; [|reflexivity];
      intros (i & Hi & _);
      assert ((name, node) ∈ sample_sites site_is_subsample tr) as Hs
        by (apply list_elem_of_lookup; eauto);
      apply sample_sites_elem_of in Hs as (_ & Hns & Ht); simpl in Hns, Ht;
      rewrite Ht in Et; simpl in Et; congruence ].
Qed.
End scale_behaviours.

(** * Pruned sample sites, and instances of the per-site statements *)

Section pruned_sites.
Import Examples MoreExamples.

(** C5 fails as stated: the pruned site [ind] is a sample site whose
    replay is not active, yet after the call its stored [log_prob] is the
    former one (3), not its product with the site's scale (6); its scale is
    not recorded either. *)
Lemma pruned_sample_site_is_not_scaled :
  type site_ind = "sample"%string
  ∧ replay_active site_ind ≠ Some true
  ∧ lookup_site "ind" (snd (terms_from_trace is_subsample subsample_trace))
    = Some site_ind
  ∧ NodeFunsor.log_prob (funsor site_ind)
    ≠ fmul (NodeFunsor.log_prob (funsor site_ind))
           (NodeFunsor.scale (funsor site_ind))
  ∧ scale (fst (terms_from_trace is_subsample subsample_trace))
    ≠ NodeFunsor.scale (funsor site_ind).
Proof.
  split; [reflexivity|]. split; [discriminate|].
  split; [reflexivity|].
  split; vm_compute; discriminate.
Qed.

(** C8 fails as stated: the pruned site [ind] is a sample site that is not
    skipped during replay, yet the call appends no [log_factor] for it. *)
Lemma pruned_sample_site_has_no_log_factor :
  type site_ind = "sample"%string
  ∧ observed_or_not_skipped ("ind"%string, site_ind) = true
  ∧ log_factors (fst (terms_from_trace is_subsample subsample_trace)) = [].
Proof. repeat split. Qed.

Lemma model_trace_keys_NoDup : NoDup (map fst model_trace).
Proof. apply (bool_decide_unpack _). vm_compute. exact I. Qed.

(** [scale_two_cases_on_trace] at the model site [x], whose residual
    variables are [{z}]: the stored record is untouched. *)
Lemma scale_two_cases_on_model_trace :
  sample_sites never_subsample model_trace !! 0%nat = Some ("x"%string, site_x)
  ∧ lookup_site "x" (snd (terms_from_trace never_subsample model_trace))
    = Some site_x.
Proof.
  split; [reflexivity|].
  apply (proj1 (scale_two_cases_on_trace never_subsample model_trace
                  0 "x"%string site_x model_trace_keys_NoDup eq_refl)).
  split; [reflexivity|]. vm_compute. discriminate.
Defined.

(** [trace_after_call] on the trace with a parameter site. *)
Lemma trace_after_call_on_mixed_trace :
  map fst (snd (terms_from_trace never_subsample mixed_trace))
  = map fst mixed_trace.
Proof.
  exact (proj1 (trace_after_call never_subsample mixed_trace
                  mixed_trace_keys_NoDup)).
Defined.
End pruned_sites.
